(** * Shallow embedding of package [fulltext] (index.go)

    The package is a typeahead full-text index: a trigram posting index
    (package go-trigram) proposes candidate documents, a per-document suffix
    array (index/suffixarray) removes the false positives, and [Service]
    keeps the two in step with the caller's external document IDs.

    Go values are modelled as follows.
    - [string] : a Go string, a sequence of bytes ([ascii]).
    - [Z]      : the integer types; [trigram.T] and [trigram.DocID] are
                 uint32, [Doc.ID] is uint64.  The one conversion that can
                 wrap, [DocID(len(..))], is written out.
    - [option (list A)] : a slice, [None] being the nil slice; the
                 difference is observable ([idxt == nil], the result of
                 [Search]).
    - [gmap]   : a Go map. *)

From Stdlib Require Import ZArith List String Ascii Bool Lia.
From Stdlib Require Import Floats.SpecFloat.
From stdpp Require Import base option list sorting gmap fin_maps.

Local Open Scope Z_scope.

(** ** Slices *)

Definition elems {A} (s : option (list A)) : list A :=
  match s with Some l => l | None => [] end.

Definition len {A} (s : option (list A)) : nat := length (elems s).

(** [append(s, x)]: never nil. *)
Definition append {A} (s : option (list A)) (x : A) : option (list A) :=
  Some (elems s ++ [x]).

(** ** Strings as byte sequences *)

Definition byte (c : ascii) : Z := Z.of_N (N_of_ascii c).

Fixpoint has_prefix (p s : string) : bool :=
  match p, s with
  | EmptyString, _ => true
  | String a p', String b s' => if Ascii.eqb a b then has_prefix p' s' else false
  | String _ _, EmptyString => false
  end.

(** Offsets at which [p] occurs in [s], in increasing order, starting the
    count at [i]. *)
Fixpoint occurrences (i : nat) (p s : string) : list nat :=
  (if has_prefix p s then [i] else []) ++
  match s with
  | EmptyString => []
  | String _ s' => occurrences (S i) p s'
  end.

Fixpoint occursb (p s : string) : bool :=
  has_prefix p s ||
  match s with
  | EmptyString => false
  | String _ s' => occursb p s'
  end.

Fixpoint char_in (c : ascii) (s : string) : bool :=
  match s with
  | EmptyString => false
  | String a s' => Ascii.eqb c a || char_in c s'
  end.

Definition str_map (f : ascii -> ascii) : string -> string :=
  fix go s := match s with
              | EmptyString => EmptyString
              | String a s' => String (f a) (go s')
              end.

(** ** strings.NewReplacer with one-byte patterns

    [replacer = strings.NewReplacer(`-`, ` `, `_`, ` `, `:`, ` `, `|`, ` `)]:
    every old and new string is a single byte, so [Replace] is a byte-wise
    substitution. *)

Definition replacer_byte (c : ascii) : ascii :=
  if Ascii.eqb c "-"%char || Ascii.eqb c "_"%char || Ascii.eqb c ":"%char || Ascii.eqb c "|"%char
  then " "%char else c.

Definition replacer_Replace : string -> string := str_map replacer_byte.

(** ** index/suffixarray

    [suffixarray.New(data)] answers substring queries over [data]; the index
    is represented by the data it was built from.  [Lookup(s, n)] returns at
    most [n] offsets at which [s] occurs, and nil when [s] is empty, does
    not occur, or [n] is 0.  ([n < 0] asks for all of them; the order of the
    offsets is unspecified in Go, here it is increasing.) *)

Record suffixarray_Index := suffixarray_New { sa_data : string }.

Definition suffixarray_Lookup (x : suffixarray_Index) (s : string) (n : Z)
  : option (list nat) :=
  if (String.length s =? 0)%nat || (n =? 0) then None
  else match occurrences 0 s (sa_data x) with
       | [] => None
       | occ => Some (if n <? 0 then occ else firstn (Z.to_nat n) occ)
       end.

(** ** Package go-trigram

    The posting index is the package github.com/dgryski/go-trigram, a
    dependency outside this repository; its functions are modelled after
    the package's code, as far as the service calls them.

    [type T uint32], [type DocID uint32], [type Index map[T][]DocID].  The
    key [TAllDocIDs], which is no trigram, lists every document ID ever
    handed out.  A key bound to the nil slice is a pruned trigram: it takes
    no more documents and restricts no query. *)

Module trigram.

Definition TAllDocIDs : Z := 0xFFFFFFFF.

(** [T(uint32(s[i])<<16 | uint32(s[i+1])<<8 | uint32(s[i+2]))] *)
Definition pack (a b c : ascii) : Z :=
  Z.lor (Z.lor (Z.shiftl (byte a) 16) (Z.shiftl (byte b) 8)) (byte c).

Definition appendIfUnique (t : list Z) (n : Z) : list Z :=
  if existsb (Z.eqb n) t then t else t ++ [n].

(** [for i := 0; i <= len(s)-3; i++]: one window per position that has
    three bytes left; nothing for a string shorter than three bytes. *)
Fixpoint windows (s : string) : list Z :=
  match s with
  | String a s1 =>
      match s1 with
      | String b (String c _) => pack a b c :: windows s1
      | _ => []
      end
  | EmptyString => []
  end.

(** [Extract(s, trigrams)]: appends the trigrams of [s] not yet listed. *)
Definition Extract (s : string) (trigrams : list Z) : list Z :=
  fold_left appendIfUnique (windows s) trigrams.

(** [ExtractAll(s, trigrams)]: appends every trigram of [s]. *)
Definition ExtractAll (s : string) (trigrams : list Z) : list Z :=
  trigrams ++ windows s.

(** [NewIndex(nil)]: only the all-documents key, bound to the nil slice. *)
Definition NewIndex_nil : gmap Z (option (list Z)) :=
  {[ TAllDocIDs := None ]}.

(** Go's [idx[t]] on a map of slices: nil for a missing key. *)
Definition get (idx : gmap Z (option (list Z))) (t : Z) : option (list Z) :=
  match idx !! t with Some v => v | None => None end.

(** One iteration of the loop of [InsertTrigrams]. *)
Definition insert1 (id : Z) (idx : gmap Z (option (list Z))) (t : Z)
  : gmap Z (option (list Z)) :=
  match idx !! t with
  | None => <[t := Some [id]]> idx
  | Some None => idx                                  (* pruned *)
  | Some (Some idxt) =>
      match last idxt with
      | Some x => if x =? id then idx else <[t := Some (idxt ++ [id])]> idx
      | None => <[t := Some (idxt ++ [id])]> idx
      end
  end.

Definition InsertTrigrams (idx : gmap Z (option (list Z))) (ts : list Z) (id : Z)
  : gmap Z (option (list Z)) :=
  let idx' := fold_left (insert1 id) ts idx in
  <[TAllDocIDs := append (get idx' TAllDocIDs) id]> idx'.

(** [id := DocID(len(idx[TAllDocIDs]))]: the conversion to uint32 wraps. *)
Definition next_id (idx : gmap Z (option (list Z))) : Z :=
  Z.of_nat (len (get idx TAllDocIDs)) mod 2 ^ 32.

Definition AddTrigrams (idx : gmap Z (option (list Z))) (ts : list Z)
  : gmap Z (option (list Z)) * Z :=
  let id := next_id idx in (InsertTrigrams idx ts id, id).

(** [sort.Search(n, f)]: binary search for the least [i] in [0, n] with
    [f i]; [fuel] bounds the number of halvings. *)
Fixpoint sort_Search_loop (fuel : nat) (f : nat -> bool) (i j : nat) : nat :=
  match fuel with
  | O => i
  | S fuel' =>
      if (i <? j)%nat then
        let h := ((i + j) / 2)%nat in
        if f h then sort_Search_loop fuel' f i h
        else sort_Search_loop fuel' f (h + 1)%nat j
      else i
  end.

Definition sort_Search (n : nat) (f : nat -> bool) : nat :=
  sort_Search_loop (S n) f 0 n.

(** One iteration of the loop of [Delete]. *)
Definition delete1 (id : Z) (idx : gmap Z (option (list Z))) (t : Z)
  : gmap Z (option (list Z)) :=
  match get idx t with
  | None => idx
  | Some ids =>
      (* len(ids) == 1 && ids[0] == id *)
      if decide (ids = [id]) then delete t idx
      else
        let i := sort_Search (length ids)
                   (fun i => match ids !! i with
                             | Some x => id <=? x
                             | None => false
                             end) in
        match ids !! i with
        | Some x =>
            if x =? id then <[t := Some (delete i ids)]> idx else idx
        | None => idx
        end
  end.

Definition Delete (idx : gmap Z (option (list Z))) (s : string) (id : Z)
  : gmap Z (option (list Z)) :=
  fold_left (delete1 id) (ExtractAll s []) idx.

(** [float64(n)], [pct * x] and [int(x)] on IEEE binary64, for
    [maxDocs := int(pct * float64(len(idx[TAllDocIDs])))]. *)
Definition float64_of_int (n : Z) : spec_float :=
  binary_normalize 53 1024 n 0 false.

Definition float64_mul : spec_float -> spec_float -> spec_float :=
  SFmul 53 1024.

Definition int_of_float64 (x : spec_float) : Z :=
  match x with
  | S754_finite s m e =>
      let v := if 0 <=? e then Z.pos m * 2 ^ e else Z.pos m / 2 ^ (- e) in
      if s then - v else v
  | _ => 0
  end.

(** [Prune(pct)]: every trigram listed for more than [maxDocs] documents is
    bound to nil.  (The count of pruned trigrams that Go returns is dropped
    by the caller.) *)
Definition Prune (idx : gmap Z (option (list Z))) (pct : spec_float)
  : gmap Z (option (list Z)) :=
  let maxDocs :=
    int_of_float64 (float64_mul pct (float64_of_int (Z.of_nat (len (get idx TAllDocIDs))))) in
  map_imap (fun k v =>
              if negb (k =? TAllDocIDs) && (maxDocs <? Z.of_nat (len v))
              then Some None else Some v) idx.

(** [sort.IsSorted] and [sort.Sort] on a list of document IDs. *)
Fixpoint IsSorted (l : list Z) : bool :=
  match l with
  | x :: (y :: _) as l' => negb (y <? x) && IsSorted l'
  | _ => true
  end.

Definition Sort (idx : gmap Z (option (list Z))) : gmap Z (option (list Z)) :=
  (fun v => match v with
            | Some dl => Some (if IsSorted dl then dl else merge_sort Z.le dl)
            | None => None
            end) <$> idx.

(** [intersect(result, a, b)]: appends to [result] the IDs common to the
    ascending lists [a] and [b], by a simultaneous scan. *)
Fixpoint intersect (result a b : list Z) {struct a} : list Z :=
  match a with
  | [] => result
  | x :: a' =>
      (fix scan (b : list Z) : list Z :=
         match b with
         | [] => result
         | y :: b' =>
             if x =? y then intersect (result ++ [x]) a' b'
             else if x <? y then intersect result a' b
             else scan b'
         end) b
  end.

(** The loop of [Filter]: an unknown trigram empties the result, a pruned
    one is skipped, any other narrows [docs]. *)
Fixpoint Filter_loop (idx : gmap Z (option (list Z))) (docs : option (list Z))
    (ts : list Z) : option (list Z) :=
  match ts with
  | [] => docs
  | t :: ts' =>
      match idx !! t with
      | None => None
      | Some None => Filter_loop idx docs ts'
      | Some (Some d) => Filter_loop idx (Some (intersect [] (elems docs) d)) ts'
      end
  end.

Definition Filter (idx : gmap Z (option (list Z))) (docs : option (list Z))
    (ts : list Z) : option (list Z) :=
  Filter_loop idx docs ts.

(** The frequency of each query trigram, or [None] when one of them is no
    key of the index. *)
Fixpoint freqs (idx : gmap Z (option (list Z))) (ts : list Z)
  : option (list (Z * nat)) :=
  match ts with
  | [] => Some []
  | t :: ts' =>
      match idx !! t with
      | None => None
      | Some d => option_map (cons (t, len d)) (freqs idx ts')
      end
  end.

(** [sort.Sort(tfList{ts, freq})]: trigrams by ascending frequency.  Go's
    sort is not stable; the order among equal frequencies is the one of an
    insertion sort here. *)
Fixpoint tf_insert (x : Z * nat) (l : list (Z * nat)) : list (Z * nat) :=
  match l with
  | [] => [x]
  | y :: l' => if (snd x <=? snd y)%nat then x :: l else y :: tf_insert x l'
  end.

Definition tf_sort (l : list (Z * nat)) : list (Z * nat) :=
  foldr tf_insert [] l.

Fixpoint skip_zero (l : list (Z * nat)) : list (Z * nat) :=
  match l with
  | (_, O) :: l' => skip_zero l'
  | _ => l
  end.

(** [QueryTrigrams(ts)]: the documents listed under every trigram of [ts]
    that is not pruned; all documents when all of them are pruned. *)
Definition QueryTrigrams (idx : gmap Z (option (list Z))) (ts : list Z)
  : option (list Z) :=
  if (length ts =? 0)%nat then get idx TAllDocIDs
  else
    match freqs idx ts with
    | None => None
    | Some tf =>
        match skip_zero (tf_sort tf) with
        | [] => get idx TAllDocIDs
        | (t, _) :: rest => Filter idx (get idx t) (map fst rest)
        end
    end.

End trigram.

(** ** Package stringy: the analyzer

    [stringy.Analyze] turns text into lower-case word tokens.  The package
    is outside this repository; the index is written against any
    deterministic tokenizer, so the analyzer is an interface here. *)

Class Analyzer := stringy_Analyze : string -> list string.

(** Modelled from the spec: stringy.Analyze, for ASCII text.  "Converts raw
    text into an ordered sequence of lowercase word tokens, splitting on
    whitespace and punctuation-like delimiters": letters are lower-cased,
    and every maximal run of letters and digits is a token. *)
Definition to_lower (c : ascii) : ascii :=
  let n := nat_of_ascii c in
  if (65 <=? n)%nat && (n <=? 90)%nat then ascii_of_nat (n + 32) else c.

Definition is_alnum (c : ascii) : bool :=
  let n := nat_of_ascii c in
  ((48 <=? n)%nat && (n <=? 57)%nat) || ((97 <=? n)%nat && (n <=? 122)%nat).

Definition flush (cur : string) : list string :=
  match cur with EmptyString => [] | _ => [cur] end.

Fixpoint fields (cur s : string) : list string :=
  match s with
  | EmptyString => flush cur
  | String c s' =>
      if is_alnum c then fields (cur ++ String c EmptyString)%string s'
      else flush cur ++ fields EmptyString s'
  end.

Definition model_Analyze : Analyzer :=
  fun s => fields EmptyString (str_map to_lower s).

(** Texts of letters and digits, and texts of white space. *)
Fixpoint all_alnum (s : string) : bool :=
  match s with
  | EmptyString => true
  | String c s' => is_alnum c && all_alnum s'
  end.

Definition is_space (c : ascii) : bool :=
  Ascii.eqb c " " || Ascii.eqb c "009" || Ascii.eqb c "010" || Ascii.eqb c "013".

Fixpoint all_space (s : string) : bool :=
  match s with
  | EmptyString => true
  | String c s' => is_space c && all_space s'
  end.

(** ** The service *)

(** suffixArray delimiter *)
Definition saDelim : string := String zero EmptyString.

(** [meta] holds metadata about an indexed document. *)
Module meta.
Record t := mk {
  sa : suffixarray_Index;  (* removes false positives of the trigram index *)
  id : Z                   (* external document ID *)
}.
End meta.

(** [Doc] is a document to be indexed. *)
Record Doc := mkDoc {
  ID : Z;
  Text : string;
  PriorText : string
}.

Record Service := mkService {
  docs : gmap Z meta.t;
  extIDs : gmap Z Z;
  idx : gmap Z (option (list Z))
}.

(** The errors of a done context: [context.Canceled] and
    [context.DeadlineExceeded]. *)
Inductive ctx_error := Canceled | DeadlineExceeded.

Inductive error :=
| ErrNotEnoughContent (query : string) (* query '%s' does not have enough content *)
| ErrZeroID (i : nat)                  (* docs[%d]: ID must be greater than zero *)
| ErrNoPriorText (i : nat)             (* docs[%d] is already indexed, but ... *)
| ErrContext (e : ctx_error).          (* what ctx.Err() reported *)

(** A [context.Context] as [Search] sees it: whether the [k]-th poll of
    [ctx.Done()] (counted from 0) finds the channel closed, and the error
    [ctx.Err()] then reports. *)
Record Context := mkContext {
  ctx_Done : nat -> bool;
  ctx_Err : ctx_error
}.

(** [context.TODO()]: never done. *)
Definition context_TODO : Context :=
  {| ctx_Done := fun _ => false; ctx_Err := Canceled |}.

Definition NewService : Service :=
  {| docs := ∅; extIDs := ∅; idx := trigram.NewIndex_nil |}.

Definition DocCount (svc : Service) : nat := size (docs svc).

Section Service.
Context {A : Analyzer}.

Definition analyze (text : string) : list Z * list string :=
  let words := stringy_Analyze (replacer_Replace text) in
  if (length words =? 0)%nat then ([], words)
  else
    let words := map (String "_"%char) words in
    (fold_left (fun tGrams tok => trigram.Extract tok tGrams) words [], words).

(** The inner loop of [Search]: every query word occurs in the document. *)
Definition verify (doc : meta.t) (words : list string) : bool :=
  forallb (fun word => bool_decide (suffixarray_Lookup (meta.sa doc) word 1 <> None)) words.

(** [candidateLoop]: [k] counts the polls of the context made so far. *)
Fixpoint candidateLoop (ctx : Context) (svc : Service) (words : list string)
    (candidates : list Z) (k : nat) (docIDs : list Z)
  : option (list Z) * option error :=
  match candidates with
  | [] => (Some docIDs, None)
  | docID :: rest =>
      if ctx_Done ctx k then (None, Some (ErrContext (ctx_Err ctx)))
      else
        match docs svc !! docID with
        | None => candidateLoop ctx svc words rest (S k) docIDs
        | Some doc =>
            if verify doc words
            then candidateLoop ctx svc words rest (S k) (docIDs ++ [meta.id doc])
            else candidateLoop ctx svc words rest (S k) docIDs
        end
  end.

Definition Search (ctx : Context) (svc : Service) (query : string)
  : option (list Z) * option error :=
  let '(tGrams, words) := analyze query in
  if (length tGrams =? 0)%nat then (None, Some (ErrNotEnoughContent query))
  else
    let candidates := trigram.QueryTrigrams (idx svc) tGrams in
    candidateLoop ctx svc words (elems candidates) 0 [].

(** The validation loop of [Upsert], from index [i] on. *)
Fixpoint validate (svc : Service) (i : nat) (ds : list Doc) : option error :=
  match ds with
  | [] => None
  | doc :: rest =>
      if ID doc =? 0 then Some (ErrZeroID i)
      else if bool_decide (is_Some (extIDs svc !! ID doc))
              && (String.length (PriorText doc) =? 0)%nat
      then Some (ErrNoPriorText i)
      else validate svc (S i) rest
  end.

(** The verifier's text: [saDelim] before every word and at the end. *)
Definition sa_text (words : list string) : string :=
  (fold_left (fun b word => b ++ saDelim ++ word) words EmptyString ++ saDelim)%string.

(** The same text, word by word. *)
Fixpoint sa_join (words : list string) : string :=
  match words with
  | [] => saDelim
  | w :: ws => (saDelim ++ w ++ sa_join ws)%string
  end.

(** One iteration of the update loop of [Upsert]. *)
Definition upsert1 (svc : Service) (doc : Doc) : Service :=
  let svc :=
    match extIDs svc !! ID doc with
    | Some docID =>
        let '(_, words) := analyze (PriorText doc) in
        {| docs := delete docID (docs svc);
           extIDs := extIDs svc;
           idx := fold_left (fun idx word => trigram.Delete idx word docID)
                    words (idx svc) |}
    | None => svc
    end in
  let '(tGrams, words) := analyze (Text doc) in
  let '(idx', docID) := trigram.AddTrigrams (idx svc) tGrams in
  {| docs := <[docID := {| meta.id := ID doc;
                           meta.sa := suffixarray_New (sa_text words) |}]> (docs svc);
     extIDs := <[ID doc := docID]> (extIDs svc);
     idx := idx' |}.

(** 0.1, the nearest binary64. *)
Definition pct_0_1 : spec_float := S754_finite false 7205759403792794 (-56).

(** The end of [Upsert]: [svc.idx.Prune(0.1)], then [svc.idx.Sort()]. *)
Definition finish (svc : Service) : Service :=
  {| docs := docs svc; extIDs := extIDs svc;
     idx := trigram.Sort (trigram.Prune (idx svc) pct_0_1) |}.

Definition Upsert (svc : Service) (ds : list Doc) : Service * option error :=
  match validate svc 0 ds with
  | Some err => (svc, Some err)
  | None => (finish (fold_left upsert1 ds svc), None)
  end.

End Service.

(** ** Histories and the state they lead to *)

Section Reachable.
Context {A : Analyzer}.

(** The states of a service: [NewService], then successful [Upsert]s.  The
    history lists the documents of the successful batches in order. *)
Inductive reachable : list Doc -> Service -> Prop :=
| reachable_New : reachable [] NewService
| reachable_Upsert hist svc ds svc' :
    reachable hist svc ->
    Upsert svc ds = (svc', None) ->
    reachable (hist ++ ds) svc'.

(** The text last indexed under each external ID. *)
Definition texts_from (txt : gmap Z string) (ds : list Doc) : gmap Z string :=
  fold_left (fun txt doc => <[ID doc := Text doc]> txt) ds txt.

Definition texts (hist : list Doc) : gmap Z string := texts_from ∅ hist.

(** Every document that replaced an indexed one carried, as [PriorText],
    the text indexed under its ID when it was processed. *)
Fixpoint exact_from (txt : gmap Z string) (ds : list Doc) : Prop :=
  match ds with
  | [] => True
  | doc :: rest =>
      (forall text, txt !! ID doc = Some text -> PriorText doc = text) /\
      exact_from (<[ID doc := Text doc]> txt) rest
  end.

Definition exact (hist : list Doc) : Prop := exact_from ∅ hist.

(** The tokens and the trigrams of a text, as [analyze] yields them. *)
Definition tokens (text : string) : list string :=
  stringy_Analyze (replacer_Replace text).

Definition tgrams (text : string) : list Z := fst (analyze text).

(** The verifier [Upsert] builds for a text. *)
Definition verifier (text : string) : suffixarray_Index :=
  suffixarray_New (sa_text (snd (analyze text))).

End Reachable.

(** The IDs handed out so far. *)
Definition all_ids (idx : gmap Z (option (list Z))) : list Z :=
  elems (trigram.get idx trigram.TAllDocIDs).

(** Document [d] is listed under trigram [t]; trigram [t] is pruned. *)
Definition posted (idx : gmap Z (option (list Z))) (t d : Z) : Prop :=
  exists l, idx !! t = Some (Some l) /\ d ∈ l.

Definition pruned (idx : gmap Z (option (list Z))) (t : Z) : Prop :=
  idx !! t = Some None.

Record index_ok (idx : gmap Z (option (list Z))) : Prop := {
  ok_all : all_ids idx = seqZ 0 (Z.of_nat (length (all_ids idx)));
  ok_cap : Z.of_nat (length (all_ids idx)) <= 2 ^ 32;
  ok_sorted : forall t l, t <> trigram.TAllDocIDs ->
      idx !! t = Some (Some l) -> StronglySorted Z.lt l;
  ok_range : forall t d, t <> trigram.TAllDocIDs ->
      posted idx t d -> 0 <= d < Z.of_nat (length (all_ids idx))
}.

Section Invariant.
Context {A : Analyzer}.

(** The invariant of the service, against the text [txt] last indexed
    under each external ID. *)
Record Inv (svc : Service) (txt : gmap Z string) : Prop := {
  inv_idx : index_ok (idx svc);
  inv_docs_range : forall d m, docs svc !! d = Some m ->
      0 <= d < Z.of_nat (length (all_ids (idx svc)));
  inv_ext : forall e d, extIDs svc !! e = Some d ->
      exists text, txt !! e = Some text /\
        docs svc !! d = Some {| meta.sa := verifier text; meta.id := e |};
  inv_docs : forall d m, docs svc !! d = Some m ->
      extIDs svc !! meta.id m = Some d;
  inv_dom : dom (extIDs svc) = dom txt;
  inv_size : size (docs svc) = size (extIDs svc);
  inv_complete : forall e d text t,
      extIDs svc !! e = Some d -> txt !! e = Some text -> t ∈ tgrams text ->
      pruned (idx svc) t \/ posted (idx svc) t d;
  inv_sound : forall e d text t,
      extIDs svc !! e = Some d -> txt !! e = Some text ->
      t <> trigram.TAllDocIDs -> posted (idx svc) t d -> t ∈ tgrams text
}.

(** The first half of an update, as a state of its own: the old document
    is gone and its external ID is free again. *)
Definition forget (svc : Service) (doc : Doc) (docID : Z) : Service :=
  {| docs := delete docID (docs svc);
     extIDs := delete (ID doc) (extIDs svc);
     idx := fold_left (fun idx word => trigram.Delete idx word docID)
              (snd (analyze (PriorText doc))) (idx svc) |}.

(** What one candidate adds to the result of [Search]. *)
Definition hit (svc : Service) (words : list string) (docID : Z) : option Z :=
  match docs svc !! docID with
  | Some doc => if verify doc words then Some (meta.id doc) else None
  | None => None
  end.


End Invariant.

(** A token without the word-start marker; a query without the delimiter. *)
Definition no_marker (w : string) : Prop := char_in "_"%char w = false.
Definition no_delim (w : string) : Prop := char_in zero w = false.

(** ASCII case folding of a query. *)
Definition lower (s : string) : string := str_map to_lower s.

(** The analyzer does not tell [s] from its lower-case form. *)
Definition folds_case {A : Analyzer} (s : string) : Prop :=
  stringy_Analyze (lower s) = stringy_Analyze s.

(** Which error, if any: the outcome without the message. *)
Inductive outcome := Ok | NotEnoughContent | InvalidInput | Cancelled.

Definition outcome_of (err : option error) : outcome :=
  match err with
  | None => Ok
  | Some (ErrNotEnoughContent _) => NotEnoughContent
  | Some (ErrZeroID _) | Some (ErrNoPriorText _) => InvalidInput
  | Some (ErrContext _) => Cancelled
  end.

(** What [validate] rejects, and the error it reports for it at index [i]. *)
Definition invalid (svc : Service) (doc : Doc) : bool :=
  (ID doc =? 0) ||
  (bool_decide (is_Some (extIDs svc !! ID doc)) && (String.length (PriorText doc) =? 0)%nat).

Definition validation_error (i : nat) (doc : Doc) : error :=
  if ID doc =? 0 then ErrZeroID i else ErrNoPriorText i.

(** ** Notions for the further properties *)

(** The internal ID of each external ID after the documents [ds], the first
    of which takes internal ID [n]: the position of its last document. *)
Fixpoint ids_from (n : nat) (ids : gmap Z Z) (ds : list Doc) : gmap Z Z :=
  match ds with
  | [] => ids
  | doc :: rest => ids_from (S n) (<[ID doc := Z.of_nat n]> ids) rest
  end.

Definition ids (hist : list Doc) : gmap Z Z := ids_from 0 ∅ hist.

(** [e1] got its current internal ID before [e2] got its own. *)
Definition older (svc : Service) (e1 e2 : Z) : Prop :=
  forall d1 d2, extIDs svc !! e1 = Some d1 -> extIDs svc !! e2 = Some d2 -> d1 < d2.

(** What a query asks of a text: each token of the query starts a token of
    the text. *)
Definition matches {A : Analyzer} (query text : string) : Prop :=
  forall tok, tok ∈ tokens query ->
    exists w, w ∈ tokens text /\ has_prefix tok w = true.

(** [Search] without the posting index: the verification of every internal
    ID handed out, in order. *)
Definition scan {A : Analyzer} (svc : Service) (query : string) : list Z :=
  omap (hit svc (snd (analyze query))) (all_ids (idx svc)).

(** A document with its separators replaced as [analyze] does. *)
Definition spaced (doc : Doc) : Doc :=
  mkDoc (ID doc) (replacer_Replace (Text doc)) (replacer_Replace (PriorText doc)).

(** A context that is done from the start. *)
Definition ctx_done : Context :=
  {| ctx_Done := fun _ => true; ctx_Err := Canceled |}.

(** ** The documents of the package's tests *)

Definition docOne := mkDoc 1 "The quick brown fox jumps over the lazy dog" EmptyString.
Definition docTwo := mkDoc 2 "She sells sea shells by the sea shore" EmptyString.
Definition docThree := mkDoc 3
  "Peter Piper picked a peck of pickled peppers while jumping over the sea shells" EmptyString.
Definition svc3 : Service :=
  fst (@Upsert model_Analyze NewService [docOne; docTwo; docThree]).

(** The update of [TestService_Upsert]. *)
Definition docThree' := mkDoc 3 "Peter Piper picked a peck of spicy peppers" (Text docThree).

Definition svcA : Service := fst (@Upsert model_Analyze NewService [docThree]).
Definition svcB : Service := fst (@Upsert model_Analyze svcA [docThree']).

(** ** Further scenarios *)

(** A context cancelled between the first and the second poll. *)
Definition ctx_cancelled_at_1 : Context :=
  {| ctx_Done := fun k => (1 <=? k)%nat; ctx_Err := Canceled |}.

(** Ten documents, so that [Prune(0.1)] keeps the trigrams of one document
    and drops those of two; then document 1 replaced with a [PriorText]
    that is not its text. *)
Definition ten : list Doc :=
  [mkDoc 1 "aaa" EmptyString; mkDoc 2 "bbb" EmptyString; mkDoc 3 "ccc" EmptyString; mkDoc 4 "ddd" EmptyString;
   mkDoc 5 "eee" EmptyString; mkDoc 6 "fff" EmptyString; mkDoc 7 "ggg" EmptyString; mkDoc 8 "hhh" EmptyString;
   mkDoc 9 "iii kkk" EmptyString; mkDoc 10 "jjj kkk" EmptyString].
Definition svc10 : Service := fst (@Upsert model_Analyze NewService ten).
Definition wrong_prior : Doc := mkDoc 1 "zzz" "qqq".
Definition svc11 : Service := fst (@Upsert model_Analyze svc10 [wrong_prior]).

(** The same replacement with the [PriorText] that was indexed. *)
Definition right_prior : Doc := mkDoc 1 "zzz" "aaa".
Definition svc11' : Service := fst (@Upsert model_Analyze svc10 [right_prior]).

(** The same ten documents behind a first version of document 1, in one
    batch. *)
Definition repeated : list Doc := mkDoc 1 "xxx" EmptyString :: ten.
Definition svc_repeated : Service := fst (@Upsert model_Analyze NewService repeated).

(** A document without text. *)
Definition blank : Doc := mkDoc 1 EmptyString EmptyString.
Definition svc_blank : Service := fst (@Upsert model_Analyze NewService [blank]).



(** * Properties *)

(** ** Strings *)

Lemma str_app_cons (x : ascii) (a b : string) :
  (String x a ++ b = String x (a ++ b))%string.
Proof. reflexivity. Qed.

Lemma str_app_nil (b : string) : (EmptyString ++ b = b)%string.
Proof. reflexivity. Qed.

Lemma str_app_assoc (a b c : string) : ((a ++ b) ++ c = a ++ (b ++ c))%string.
Proof.
  induction a as [|x a IH]; [reflexivity |].
  now rewrite !str_app_cons, IH.
Qed.

Lemma has_prefix_app_l (p s r : string) :
  has_prefix p s = true -> has_prefix p (s ++ r) = true.
Proof.
  revert s. induction p as [|a p IH]; intros [|b s]; try easy.
  rewrite str_app_cons. simpl. destruct (Ascii.eqb a b); [apply IH | easy].
Qed.

Lemma occursb_cons (p : string) (c : ascii) (s : string) :
  occursb p (String c s) = has_prefix p (String c s) || occursb p s.
Proof. reflexivity. Qed.

Lemma occursb_app_r (p x s : string) :
  occursb p s = true -> occursb p (x ++ s) = true.
Proof.
  intros H. induction x as [|c x IH]; [exact H |].
  rewrite str_app_cons, occursb_cons, IH. apply orb_true_r.
Qed.

Lemma occurrences_nil (i : nat) (p s : string) :
  occurrences i p s = [] <-> occursb p s = false.
Proof.
  revert i. induction s as [|c s IH]; intros i.
  - simpl. destruct (has_prefix p EmptyString); simpl; split; congruence.
  - rewrite occursb_cons. cbn [occurrences].
    destruct (has_prefix p (String c s)); simpl; [split; congruence |].
    apply IH.
Qed.

(** [Lookup(s, 1) != nil] is the substring test. *)
Lemma Lookup_found (x : suffixarray_Index) (s : string) :
  suffixarray_Lookup x s 1 <> None <->
  s <> EmptyString /\ occursb s (sa_data x) = true.
Proof.
  unfold suffixarray_Lookup. destruct s as [|c s]; simpl.
  - split; [congruence | intros [? _]; congruence].
  - pose proof (occurrences_nil 0 (String c s) (sa_data x)) as Hocc.
    destruct (occurrences 0 (String c s) (sa_data x)) as [|o occ].
    + split; [congruence |]. intros [_ H].
      destruct Hocc as [Hocc _]. rewrite Hocc in H; [discriminate | reflexivity].
    + split; [| congruence]. intros _. split; [congruence |].
      destruct (occursb (String c s) (sa_data x)); [reflexivity |].
      destruct Hocc as [_ Hocc]. discriminate Hocc. reflexivity.
Qed.

Section SaText.
Context {A : Analyzer}.

Lemma sa_text_fold (words : list string) (b : string) :
  (fold_left (fun b word => b ++ saDelim ++ word) words b ++ saDelim
   = b ++ sa_join words)%string.
Proof.
  revert b. induction words as [|w ws IH]; intros b; cbn [fold_left sa_join];
    [reflexivity |].
  rewrite IH. now rewrite !str_app_assoc.
Qed.

Lemma sa_text_join (words : list string) : sa_text words = sa_join words.
Proof. unfold sa_text. now rewrite sa_text_fold. Qed.

Lemma sa_join_cons (w : string) (ws : list string) :
  sa_join (w :: ws) = String zero (w ++ sa_join ws).
Proof. reflexivity. Qed.

(** A prefix of an indexed token is found behind the marker. *)
Lemma sa_join_prefix (toks : list string) (w p : string) :
  w ∈ toks -> has_prefix p w = true ->
  occursb (String "_" p) (sa_join (map (String "_"%char) toks)) = true.
Proof.
  intros Hin Hp. induction toks as [|tok toks IH]; [inversion Hin |].
  cbn [map]. rewrite sa_join_cons, str_app_cons, occursb_cons, occursb_cons.
  apply elem_of_cons in Hin as [<- | Hin].
  - cbn [has_prefix]. rewrite Ascii.eqb_refl, (has_prefix_app_l _ _ _ Hp).
    now rewrite !orb_true_r.
  - rewrite (occursb_app_r _ tok _ (IH Hin)). now rewrite !orb_true_r.
Qed.

Lemma occursb_skip_token (p tok rest : string) :
  no_marker tok ->
  occursb (String "_" p) (tok ++ rest) = true ->
  occursb (String "_" p) rest = true.
Proof.
  unfold no_marker. induction tok as [|c tok IH]; [easy |].
  rewrite str_app_cons, occursb_cons. cbn [char_in has_prefix].
  intros Hc. apply orb_false_iff in Hc as [Hc Htok].
  rewrite Hc. exact (IH Htok).
Qed.

Lemma has_prefix_before_delim (p tok rest : string) :
  no_delim p ->
  has_prefix p (tok ++ String zero rest) = true -> has_prefix p tok = true.
Proof.
  unfold no_delim. revert tok. induction p as [|a p IH]; intros tok; [easy |].
  cbn [char_in]. intros Ha. apply orb_false_iff in Ha as [Ha Hp].
  destruct tok as [|b tok].
  - rewrite str_app_nil. cbn [has_prefix]. rewrite Ascii.eqb_sym, Ha. easy.
  - rewrite str_app_cons. cbn [has_prefix].
    destruct (Ascii.eqb a b); [apply IH, Hp | easy].
Qed.

Lemma sa_join_delim (words : list string) :
  exists rest, sa_join words = String zero rest.
Proof. destruct words; [exists EmptyString | rewrite sa_join_cons]; eauto. Qed.

(** Behind the marker only prefixes of indexed tokens are found. *)
Lemma sa_join_found (toks : list string) (p : string) :
  Forall no_marker toks -> no_delim p ->
  occursb (String "_" p) (sa_join (map (String "_"%char) toks)) = true ->
  exists w, w ∈ toks /\ has_prefix p w = true.
Proof.
  intros Htoks Hp. induction Htoks as [|tok toks Htok _ IH].
  - discriminate.
  - cbn [map]. rewrite sa_join_cons, str_app_cons, occursb_cons, occursb_cons.
    cbn [has_prefix]. rewrite Ascii.eqb_refl.
    replace (Ascii.eqb "_" zero) with false by reflexivity. cbn [orb].
    intros H. apply orb_true_iff in H as [H | H].
    + destruct (sa_join_delim (map (String "_"%char) toks)) as [rest Hr].
      rewrite Hr in H. exists tok. split; [left |].
      eapply has_prefix_before_delim; eauto.
    + apply occursb_skip_token in H; [| exact Htok].
      destruct (IH H) as (w & Hw & Hpw). exists w. split; [now right | exact Hpw].
Qed.

End SaText.

(** ** Trigrams *)

Lemma byte_bit_high (a : ascii) (n : Z) : 8 <= n -> Z.testbit (byte a) n = false.
Proof.
  intros Hn. unfold byte.
  assert (H : 0 <= Z.of_N (N_of_ascii a) < 2 ^ 8).
  { pose proof (N_ascii_bounded a). lia. }
  destruct (Z.eq_dec (Z.of_N (N_of_ascii a)) 0) as [-> | Hz]; [apply Z.bits_0 |].
  apply Z.bits_above_log2; [lia |].
  assert (Z.log2 (Z.of_N (N_of_ascii a)) < 8); [| lia].
  apply Z.log2_lt_pow2; lia.
Qed.

(** A trigram has 24 bits: it never is the all-documents key. *)
Lemma pack_not_all (a b c : ascii) : trigram.pack a b c <> trigram.TAllDocIDs.
Proof.
  intros H. apply (f_equal (fun z => Z.testbit z 31)) in H.
  unfold trigram.pack in H. rewrite !Z.lor_spec, !Z.shiftl_spec in H by lia.
  rewrite !byte_bit_high in H by lia. discriminate H.
Qed.

Lemma windows_not_all (s : string) : trigram.TAllDocIDs ∉ trigram.windows s.
Proof.
  induction s as [|a s IH]; [apply not_elem_of_nil |].
  cbn [trigram.windows]. destruct s as [|b [|c s]]; try apply not_elem_of_nil.
  apply not_elem_of_cons. split; [| exact IH].
  intros H. symmetry in H. exact (pack_not_all _ _ _ H).
Qed.

Lemma windows_prefix (p w : string) (t : Z) :
  has_prefix p w = true -> t ∈ trigram.windows p -> t ∈ trigram.windows w.
Proof.
  revert w. induction p as [|a p IH]; intros w Hp Ht; [inversion Ht |].
  destruct w as [|a' w]; [discriminate |]. cbn [has_prefix] in Hp.
  destruct (Ascii.eqb_spec a a') as [<- | ]; [| discriminate].
  cbn [trigram.windows] in Ht.
  destruct p as [|b [|c p]]; try (inversion Ht; fail).
  destruct w as [|b' [|c' w]]; try discriminate.
  - cbn [has_prefix] in Hp. destruct (Ascii.eqb b b'); discriminate.
  - pose proof Hp as Hp'. cbn [has_prefix] in Hp'.
    destruct (Ascii.eqb_spec b b') as [<- | ]; [| discriminate].
    destruct (Ascii.eqb_spec c c') as [<- | ]; [| discriminate].
    cbn [trigram.windows]. apply elem_of_cons in Ht as [-> | Ht]; [left |].
    right. exact (IH _ Hp Ht).
Qed.

Lemma windows_nonempty (a b c : ascii) (s : string) :
  trigram.windows (String a (String b (String c s))) <> [].
Proof. discriminate. Qed.

Lemma elem_of_appendIfUnique (x n : Z) (t : list Z) :
  x ∈ trigram.appendIfUnique t n <-> x ∈ t \/ x = n.
Proof.
  unfold trigram.appendIfUnique. destruct (existsb (Z.eqb n) t) eqn:E.
  - split; [now left |]. intros [H | ->]; [exact H |].
    apply existsb_exists in E as (y & Hy & Heq).
    apply Z.eqb_eq in Heq as ->. now apply list_elem_of_In.
  - rewrite elem_of_app, list_elem_of_singleton. tauto.
Qed.

Lemma elem_of_Extract (x : Z) (s : string) (ts : list Z) :
  x ∈ trigram.Extract s ts <-> x ∈ ts \/ x ∈ trigram.windows s.
Proof.
  unfold trigram.Extract. revert ts.
  induction (trigram.windows s) as [|w ws IH]; intros ts; cbn [fold_left].
  - rewrite elem_of_nil. tauto.
  - rewrite IH, elem_of_appendIfUnique, elem_of_cons. tauto.
Qed.

Lemma elem_of_Extract_fold (x : Z) (words : list string) (ts : list Z) :
  x ∈ fold_left (fun tGrams tok => trigram.Extract tok tGrams) words ts <->
  x ∈ ts \/ exists w, w ∈ words /\ x ∈ trigram.windows w.
Proof.
  revert ts. induction words as [|w words IH]; intros ts; cbn [fold_left].
  - split; [now left |]. intros [H | (w & Hw & _)]; [exact H | inversion Hw].
  - rewrite IH, elem_of_Extract. split.
    + intros [[H | H] | (w' & Hw' & H)]; [now left | right .. ].
      * exists w. split; [left | exact H].
      * exists w'. split; [now right | exact H].
    + intros [H | (w' & Hw' & H)]; [now left; left |].
      apply elem_of_cons in Hw' as [-> | Hw']; [now left; right |].
      right. eauto.
Qed.

Section Analyze.
Context {A : Analyzer}.

Lemma analyze_words (text : string) :
  snd (analyze text) = map (String "_"%char) (tokens text).
Proof.
  unfold analyze, tokens.
  destruct (stringy_Analyze (replacer_Replace text)); reflexivity.
Qed.

Lemma elem_of_tgrams (t : Z) (text : string) :
  t ∈ tgrams text <->
  exists tok, tok ∈ tokens text /\ t ∈ trigram.windows (String "_"%char tok).
Proof.
  unfold tgrams, analyze, tokens.
  destruct (stringy_Analyze (replacer_Replace text)) as [|w ws] eqn:E.
  - cbn. split; [intros H; inversion H | intros (? & H & _); inversion H].
  - cbn [Nat.eqb length fst]. rewrite elem_of_Extract_fold. split.
    + intros [H | (w' & Hw' & H)]; [inversion H |].
      apply list_elem_of_fmap in Hw' as (tok & -> & Htok). eauto.
    + intros (tok & Htok & H). right. exists (String "_"%char tok).
      split; [| exact H]. apply list_elem_of_fmap. eauto.
Qed.

Lemma tgrams_not_all (text : string) : trigram.TAllDocIDs ∉ tgrams text.
Proof.
  intros H. apply elem_of_tgrams in H as (tok & _ & H).
  exact (windows_not_all _ H).
Qed.

End Analyze.

(** ** Ascending lists of document IDs *)

Lemma StronglySorted_sublist (l k : list Z) :
  l `sublist_of` k -> StronglySorted Z.lt k -> StronglySorted Z.lt l.
Proof.
  induction 1 as [| x l k Hs IH | x l k Hs IH]; intros Hk.
  - constructor.
  - inversion_clear Hk as [| ? ? Hk' Hx]. constructor; [now apply IH |].
    rewrite Forall_forall in Hx |- *. intros y Hy.
    apply Hx. eapply elem_of_sublist; eauto.
  - inversion_clear Hk. now apply IH.
Qed.

Lemma StronglySorted_NoDup (l : list Z) : StronglySorted Z.lt l -> NoDup l.
Proof.
  induction 1 as [| x l _ IH Hx]; constructor; [| exact IH].
  intros Hin. rewrite Forall_forall in Hx. specialize (Hx x Hin). lia.
Qed.


Lemma StronglySorted_snoc (l : list Z) (x : Z) :
  StronglySorted Z.lt l -> Forall (fun y => y < x) l ->
  StronglySorted Z.lt (l ++ [x]).
Proof.
  intros Hl Hx. apply StronglySorted_app.
  split; [| split; [exact Hl | repeat constructor]].
  intros y z Hy Hz. apply list_elem_of_singleton in Hz as ->.
  rewrite Forall_forall in Hx. now apply Hx.
Qed.

Lemma StronglySorted_last_max (l : list Z) (x : Z) :
  StronglySorted Z.lt l -> x ∈ l -> Forall (fun d => d <= x) l -> last l = Some x.
Proof.
  induction 1 as [| a l Hs IH Ha]; intros Hx Hle; [inversion Hx |].
  inversion_clear Hle as [| ? ? Hax Hle'].
  destruct l as [|y l]; cbn [last].
  - apply list_elem_of_singleton in Hx. now subst.
  - apply IH; [| exact Hle'].
    apply elem_of_cons in Hx as [-> | Hx]; [| exact Hx].
    exfalso. inversion_clear Ha. inversion_clear Hle'. lia.
Qed.

Lemma StronglySorted_seqZ (m : Z) (n : nat) : StronglySorted Z.lt (seqZ m (Z.of_nat n)).
Proof.
  induction n as [|n IH]; [constructor |].
  rewrite seqZ_S. apply StronglySorted_snoc; [exact IH |].
  apply Forall_forall. intros y Hy. apply elem_of_seqZ in Hy. lia.
Qed.

Lemma IsSorted_StronglySorted (l : list Z) :
  StronglySorted Z.lt l -> trigram.IsSorted l = true.
Proof.
  induction 1 as [| x l Hl IH Hx]; [reflexivity |].
  destruct l as [|y l]; [reflexivity |].
  change (negb (y <? x) && trigram.IsSorted (y :: l) = true).
  rewrite IH, andb_true_r. inversion_clear Hx.
  apply negb_true_iff, Z.ltb_ge. lia.
Qed.

(** ** sort.Search *)



(** ** The posting index, one key at a time *)

Lemma insert1_cases (id : Z) (idx : gmap Z (option (list Z))) (t : Z) :
  (trigram.insert1 id idx t = idx /\ (pruned idx t \/ posted idx t id)) \/
  (exists l, trigram.insert1 id idx t = <[t := Some (l ++ [id])]> idx /\
     (idx !! t = None /\ l = [] \/ idx !! t = Some (Some l) /\ last l <> Some id)).
Proof.
  unfold trigram.insert1, pruned, posted.
  destruct (idx !! t) as [[l|]|] eqn:E.
  - destruct (last l) as [x|] eqn:El.
    + destruct (Z.eqb_spec x id) as [-> | Hne].
      * left. split; [reflexivity | right]. exists l. split; [reflexivity |].
        now apply last_Some_elem_of.
      * right. exists l. split; [reflexivity | right]. split; [reflexivity |]. congruence.
    + right. exists l. split; [reflexivity | right]. split; [reflexivity | congruence].
  - left. split; [reflexivity | now left].
  - right. exists []. split; [reflexivity | now left].
Qed.

Lemma insert1_lookup_ne (id : Z) (idx : gmap Z (option (list Z))) (t t' : Z) :
  t <> t' -> trigram.insert1 id idx t !! t' = idx !! t'.
Proof.
  intros Hne. destruct (insert1_cases id idx t) as [[-> _] | (l & -> & _)];
    [reflexivity | now rewrite lookup_insert_ne].
Qed.

Lemma insert1_pruned (id : Z) (idx : gmap Z (option (list Z))) (t t' : Z) :
  pruned (trigram.insert1 id idx t) t' <-> pruned idx t'.
Proof.
  unfold pruned. destruct (decide (t = t')) as [<- | Hne];
    [| now rewrite insert1_lookup_ne].
  destruct (insert1_cases id idx t) as [[-> _] | (l & -> & H)]; [reflexivity |].
  rewrite lookup_insert_eq. destruct H as [[-> _] | [-> _]]; split; congruence.
Qed.

Lemma insert1_posted_mono (id : Z) (idx : gmap Z (option (list Z))) (t t' d : Z) :
  posted idx t' d -> posted (trigram.insert1 id idx t) t' d.
Proof.
  intros (l & Hl & Hd). unfold posted.
  destruct (decide (t = t')) as [<- | Hne];
    [| rewrite insert1_lookup_ne by assumption; eauto].
  destruct (insert1_cases id idx t) as [[-> _] | (l' & -> & H)]; [eauto |].
  rewrite lookup_insert_eq. destruct H as [[H _] | [H _]]; [congruence |].
  assert (l' = l) as -> by congruence.
  exists (l ++ [id]). split; [reflexivity |]. apply elem_of_app. now left.
Qed.

Lemma insert1_posted_inv (id : Z) (idx : gmap Z (option (list Z))) (t t' d : Z) :
  posted (trigram.insert1 id idx t) t' d -> posted idx t' d \/ (d = id /\ t' = t).
Proof.
  unfold posted. destruct (decide (t = t')) as [<- | Hne];
    [| rewrite insert1_lookup_ne by assumption; now left].
  destruct (insert1_cases id idx t) as [[-> _] | (l' & -> & H)]; [now left |].
  rewrite lookup_insert_eq. intros (l & [= <-] & Hd).
  apply elem_of_app in Hd as [Hd | Hd].
  - left. destruct H as [[_ ->] | [H _]]; [inversion Hd | eauto].
  - right. apply list_elem_of_singleton in Hd. now split.
Qed.

Lemma insert1_hit (id : Z) (idx : gmap Z (option (list Z))) (t : Z) :
  pruned (trigram.insert1 id idx t) t \/ posted (trigram.insert1 id idx t) t id.
Proof.
  destruct (insert1_cases id idx t) as [[-> H] | (l & -> & _)]; [exact H |].
  right. exists (l ++ [id]). rewrite lookup_insert_eq. split; [reflexivity |].
  apply elem_of_app. right. now left.
Qed.

(** Lists stay ascending when the inserted ID is above the listed ones. *)
Lemma insert1_sorted (id : Z) (idx : gmap Z (option (list Z))) (t t' : Z) (l : list Z) :
  (forall t l, idx !! t = Some (Some l) ->
     StronglySorted Z.lt l /\ Forall (fun d => d <= id) l) ->
  trigram.insert1 id idx t !! t' = Some (Some l) ->
  StronglySorted Z.lt l /\ Forall (fun d => d <= id) l.
Proof.
  intros Hidx. destruct (decide (t = t')) as [<- | Hne];
    [| rewrite insert1_lookup_ne by assumption; apply Hidx].
  destruct (insert1_cases id idx t) as [[-> _] | (l' & -> & H)]; [apply Hidx |].
  rewrite lookup_insert_eq. intros [= <-].
  destruct H as [[_ ->] | [Hl' Hlast]].
  - split; repeat constructor. lia.
  - destruct (Hidx _ _ Hl') as [Hs Hle].
    assert (Hlt : Forall (fun d => d < id) l').
    { apply Forall_forall. intros d Hd.
      rewrite Forall_forall in Hle. pose proof (Hle d Hd) as Hdle.
      destruct (decide (d = id)) as [-> | Hne]; [| lia].
      exfalso. apply Hlast. apply StronglySorted_last_max; [assumption .. |].
      now apply Forall_forall. }
    split; [now apply StronglySorted_snoc |].
    apply Forall_app. split; [exact Hle | repeat constructor; lia].
Qed.

Lemma delete1_cases (id : Z) (idx : gmap Z (option (list Z))) (t : Z) :
  trigram.delete1 id idx t = idx \/
  (idx !! t = Some (Some [id]) /\ trigram.delete1 id idx t = delete t idx) \/
  (exists l i, idx !! t = Some (Some l) /\ l !! i = Some id /\
     trigram.delete1 id idx t = <[t := Some (delete i l)]> idx).
Proof.
  unfold trigram.delete1, trigram.get.
  destruct (idx !! t) as [[l|]|] eqn:E; [| now left ..].
  destruct (decide (l = [id])) as [-> | Hne]; [right; left; now split |].
  match goal with |- context [l !! ?i] => generalize i end. intros i.
  destruct (l !! i) as [x|] eqn:Ei; [| now left].
  destruct (Z.eqb_spec x id) as [-> | Hx]; [| now left].
  right; right. exists l, i. now repeat split.
Qed.

Lemma delete1_lookup_ne (id : Z) (idx : gmap Z (option (list Z))) (t t' : Z) :
  t <> t' -> trigram.delete1 id idx t !! t' = idx !! t'.
Proof.
  intros Hne.
  destruct (delete1_cases id idx t) as [-> | [[_ ->] | (l & i & _ & _ & ->)]];
    [reflexivity | now rewrite lookup_delete_ne | now rewrite lookup_insert_ne].
Qed.

Lemma delete1_pruned (id : Z) (idx : gmap Z (option (list Z))) (t t' : Z) :
  pruned idx t' -> pruned (trigram.delete1 id idx t) t'.
Proof.
  unfold pruned. intros Hp. destruct (decide (t = t')) as [<- | Hne];
    [| now rewrite delete1_lookup_ne].
  destruct (delete1_cases id idx t) as [-> | [[H _] | (l & i & H & _)]];
    [exact Hp | congruence ..].
Qed.

Lemma delete1_posted_inv (id : Z) (idx : gmap Z (option (list Z))) (t t' d : Z) :
  posted (trigram.delete1 id idx t) t' d -> posted idx t' d.
Proof.
  unfold posted. destruct (decide (t = t')) as [<- | Hne];
    [| now rewrite delete1_lookup_ne].
  destruct (delete1_cases id idx t) as [-> | [[_ ->] | (l & i & Hl & _ & ->)]].
  - easy.
  - rewrite lookup_delete_eq. intros (? & [=] & _).
  - rewrite lookup_insert_eq. intros (l' & [= <-] & Hd). exists l.
    split; [exact Hl |]. eapply elem_of_sublist; [exact Hd | apply sublist_delete].
Qed.

Lemma delete1_posted_ne (id : Z) (idx : gmap Z (option (list Z))) (t t' d : Z) :
  d <> id -> posted idx t' d -> posted (trigram.delete1 id idx t) t' d.
Proof.
  intros Hd (l & Hl & Hin). unfold posted.
  destruct (decide (t = t')) as [<- | Hne];
    [| rewrite delete1_lookup_ne by assumption; eauto].
  destruct (delete1_cases id idx t) as [-> | [[H _] | (l' & i & Hl' & Hi & ->)]].
  - eauto.
  - rewrite Hl in H. injection H as ->. apply list_elem_of_singleton in Hin. easy.
  - rewrite lookup_insert_eq. assert (l' = l) as -> by congruence.
    exists (delete i l). split; [reflexivity |].
    apply list_elem_of_lookup in Hin as [j Hj].
    destruct (decide (i = j)) as [-> | Hij]; [congruence |].
    apply list_elem_of_lookup.
    destruct (Nat.lt_ge_cases j i) as [Hlt | Hge].
    + exists j. now rewrite list_lookup_delete_lt.
    + exists (pred j). rewrite list_lookup_delete_ge by lia.
      now replace (S (pred j)) with j by lia.
Qed.

Lemma delete1_sorted (id : Z) (idx : gmap Z (option (list Z))) (t t' : Z) (l : list Z) :
  (forall t l, idx !! t = Some (Some l) -> StronglySorted Z.lt l) ->
  trigram.delete1 id idx t !! t' = Some (Some l) -> StronglySorted Z.lt l.
Proof.
  intros Hidx. destruct (decide (t = t')) as [<- | Hne];
    [| rewrite delete1_lookup_ne by assumption; apply Hidx].
  destruct (delete1_cases id idx t) as [-> | [[_ ->] | (l' & i & Hl' & _ & ->)]].
  - apply Hidx.
  - now rewrite lookup_delete_eq.
  - rewrite lookup_insert_eq. intros [= <-].
    eapply StronglySorted_sublist; [apply sublist_delete | eauto].
Qed.


(** ** The posting index, one operation at a time *)

Lemma Delete_fold (id : Z) (idx : gmap Z (option (list Z))) (words : list string) :
  fold_left (fun idx word => trigram.Delete idx word id) words idx
  = fold_left (trigram.delete1 id) (words ≫= trigram.windows) idx.
Proof.
  revert idx. induction words as [|w ws IH]; intros idx; [reflexivity |].
  cbn [fold_left]. rewrite IH. unfold trigram.Delete, trigram.ExtractAll.
  cbn [mbind list_bind app]. now rewrite fold_left_app.
Qed.

Lemma deletes_all_ids (id : Z) (ts : list Z) (idx : gmap Z (option (list Z))) :
  trigram.TAllDocIDs ∉ ts ->
  all_ids (fold_left (trigram.delete1 id) ts idx) = all_ids idx.
Proof.
  revert idx. induction ts as [|t ts IH]; intros idx Hts; [reflexivity |].
  apply not_elem_of_cons in Hts as [Ht Hts]. cbn [fold_left].
  rewrite IH by assumption. unfold all_ids, trigram.get.
  now rewrite delete1_lookup_ne.
Qed.

Lemma deletes_pruned (id : Z) (ts : list Z) (idx : gmap Z (option (list Z))) (t : Z) :
  pruned idx t -> pruned (fold_left (trigram.delete1 id) ts idx) t.
Proof.
  revert idx. induction ts as [|t' ts IH]; intros idx H; [exact H |].
  cbn [fold_left]. apply IH. now apply delete1_pruned.
Qed.

Lemma deletes_posted_inv (id : Z) (ts : list Z) (idx : gmap Z (option (list Z))) (t d : Z) :
  posted (fold_left (trigram.delete1 id) ts idx) t d -> posted idx t d.
Proof.
  revert idx. induction ts as [|t' ts IH]; intros idx H; [exact H |].
  cbn [fold_left] in H. apply IH in H. eapply delete1_posted_inv; eauto.
Qed.

Lemma deletes_posted_ne (id : Z) (ts : list Z) (idx : gmap Z (option (list Z))) (t d : Z) :
  d <> id -> posted idx t d -> posted (fold_left (trigram.delete1 id) ts idx) t d.
Proof.
  intros Hd. revert idx. induction ts as [|t' ts IH]; intros idx H; [exact H |].
  cbn [fold_left]. apply IH. now apply delete1_posted_ne.
Qed.

Lemma deletes_sorted (id : Z) (ts : list Z) (idx : gmap Z (option (list Z))) :
  (forall t l, idx !! t = Some (Some l) -> StronglySorted Z.lt l) ->
  forall t l, fold_left (trigram.delete1 id) ts idx !! t = Some (Some l) ->
    StronglySorted Z.lt l.
Proof.
  revert idx. induction ts as [|t' ts IH]; intros idx H; [exact H |].
  cbn [fold_left]. apply IH. intros t l. now apply delete1_sorted.
Qed.


Lemma inserts_all_ids (id : Z) (ts : list Z) (idx : gmap Z (option (list Z))) :
  trigram.TAllDocIDs ∉ ts ->
  all_ids (fold_left (trigram.insert1 id) ts idx) = all_ids idx.
Proof.
  revert idx. induction ts as [|t ts IH]; intros idx Hts; [reflexivity |].
  apply not_elem_of_cons in Hts as [Ht Hts]. cbn [fold_left].
  rewrite IH by assumption. unfold all_ids, trigram.get.
  now rewrite insert1_lookup_ne.
Qed.

Lemma inserts_pruned (id : Z) (ts : list Z) (idx : gmap Z (option (list Z))) (t : Z) :
  pruned (fold_left (trigram.insert1 id) ts idx) t <-> pruned idx t.
Proof.
  revert idx. induction ts as [|t' ts IH]; intros idx; [reflexivity |].
  cbn [fold_left]. rewrite IH. apply insert1_pruned.
Qed.

Lemma inserts_posted_mono (id : Z) (ts : list Z) (idx : gmap Z (option (list Z))) (t d : Z) :
  posted idx t d -> posted (fold_left (trigram.insert1 id) ts idx) t d.
Proof.
  revert idx. induction ts as [|t' ts IH]; intros idx H; [exact H |].
  cbn [fold_left]. apply IH. now apply insert1_posted_mono.
Qed.

Lemma inserts_posted_inv (id : Z) (ts : list Z) (idx : gmap Z (option (list Z))) (t d : Z) :
  posted (fold_left (trigram.insert1 id) ts idx) t d ->
  posted idx t d \/ (d = id /\ t ∈ ts).
Proof.
  revert idx. induction ts as [|t' ts IH]; intros idx H; [now left |].
  cbn [fold_left] in H. apply IH in H as [H | [-> H]].
  - apply insert1_posted_inv in H as [H | [-> ->]]; [now left |].
    right. split; [reflexivity | left].
  - right. split; [reflexivity | now right].
Qed.

Lemma inserts_hit (id : Z) (ts : list Z) (idx : gmap Z (option (list Z))) (t : Z) :
  t ∈ ts ->
  pruned (fold_left (trigram.insert1 id) ts idx) t \/
  posted (fold_left (trigram.insert1 id) ts idx) t id.
Proof.
  revert idx. induction ts as [|t' ts IH]; intros idx Ht; [inversion Ht |].
  cbn [fold_left]. destruct (decide (t ∈ ts)) as [Hin | Hnin]; [now apply IH |].
  apply elem_of_cons in Ht as [-> | Ht]; [| easy].
  destruct (insert1_hit id idx t') as [H | H].
  - left. now apply inserts_pruned.
  - right. now apply inserts_posted_mono.
Qed.

Lemma inserts_sorted (id : Z) (ts : list Z) (idx : gmap Z (option (list Z))) :
  (forall t l, idx !! t = Some (Some l) ->
     StronglySorted Z.lt l /\ Forall (fun d => d <= id) l) ->
  forall t l, fold_left (trigram.insert1 id) ts idx !! t = Some (Some l) ->
    StronglySorted Z.lt l /\ Forall (fun d => d <= id) l.
Proof.
  revert idx. induction ts as [|t' ts IH]; intros idx H; [exact H |].
  cbn [fold_left]. apply IH. intros t l. now apply insert1_sorted.
Qed.

(** [Prune] and [Sort] *)

Lemma Prune_lookup (idx : gmap Z (option (list Z))) (pct : spec_float) (t : Z) :
  trigram.Prune idx pct !! t = idx !! t \/
  (t <> trigram.TAllDocIDs /\ is_Some (idx !! t) /\ trigram.Prune idx pct !! t = Some None).
Proof.
  unfold trigram.Prune. rewrite map_lookup_imap.
  destruct (idx !! t) as [v|] eqn:E; cbn; [| now left].
  destruct (Z.eqb_spec t trigram.TAllDocIDs) as [-> | Hne]; cbn; [now left |].
  match goal with |- context [if ?c then _ else _] => destruct c end;
    [right | now left].
  split; [exact Hne | split; [eauto | reflexivity]].
Qed.

Lemma Prune_all_ids (idx : gmap Z (option (list Z))) (pct : spec_float) :
  all_ids (trigram.Prune idx pct) = all_ids idx.
Proof.
  unfold all_ids, trigram.get.
  destruct (Prune_lookup idx pct trigram.TAllDocIDs) as [-> | [H _]]; easy.
Qed.

Lemma Prune_pruned (idx : gmap Z (option (list Z))) (pct : spec_float) (t : Z) :
  pruned idx t -> pruned (trigram.Prune idx pct) t.
Proof.
  unfold pruned. destruct (Prune_lookup idx pct t) as [-> | (_ & _ & ->)]; easy.
Qed.

Lemma Prune_posted_inv (idx : gmap Z (option (list Z))) (pct : spec_float) (t d : Z) :
  posted (trigram.Prune idx pct) t d -> posted idx t d.
Proof.
  unfold posted. destruct (Prune_lookup idx pct t) as [-> | (_ & _ & ->)]; [easy |].
  intros (? & [=] & _).
Qed.

Lemma Prune_posted (idx : gmap Z (option (list Z))) (pct : spec_float) (t d : Z) :
  posted idx t d ->
  pruned (trigram.Prune idx pct) t \/ posted (trigram.Prune idx pct) t d.
Proof.
  unfold posted, pruned. destruct (Prune_lookup idx pct t) as [-> | (_ & _ & ->)];
    [now right | now left].
Qed.

Lemma Sort_sorted (idx : gmap Z (option (list Z))) :
  (forall t l, idx !! t = Some (Some l) -> StronglySorted Z.lt l) ->
  trigram.Sort idx = idx.
Proof.
  intros Hs. apply map_eq. intros t. unfold trigram.Sort. rewrite lookup_fmap.
  destruct (idx !! t) as [[l|]|] eqn:E; cbn; [| reflexivity ..].
  now rewrite (IsSorted_StronglySorted l (Hs t l E)).
Qed.

Lemma InsertTrigrams_lookup_ne (idx : gmap Z (option (list Z))) (ts : list Z) (id t : Z) :
  t <> trigram.TAllDocIDs ->
  trigram.InsertTrigrams idx ts id !! t = fold_left (trigram.insert1 id) ts idx !! t.
Proof. intros Ht. unfold trigram.InsertTrigrams. now rewrite lookup_insert_ne. Qed.

Lemma InsertTrigrams_all_ids (idx : gmap Z (option (list Z))) (ts : list Z) (id : Z) :
  trigram.TAllDocIDs ∉ ts ->
  all_ids (trigram.InsertTrigrams idx ts id) = all_ids idx ++ [id].
Proof.
  intros Hts. unfold all_ids at 1, trigram.get, trigram.InsertTrigrams.
  rewrite lookup_insert_eq. unfold append. cbn [elems].
  now rewrite <- (inserts_all_ids id ts idx Hts).
Qed.

Lemma InsertTrigrams_pruned (idx : gmap Z (option (list Z))) (ts : list Z) (id t : Z) :
  t <> trigram.TAllDocIDs ->
  pruned (trigram.InsertTrigrams idx ts id) t <-> pruned idx t.
Proof.
  intros Ht. unfold pruned at 1. rewrite InsertTrigrams_lookup_ne by assumption.
  apply inserts_pruned.
Qed.

Lemma InsertTrigrams_posted_mono (idx : gmap Z (option (list Z))) (ts : list Z) (id t d : Z) :
  t <> trigram.TAllDocIDs ->
  posted idx t d -> posted (trigram.InsertTrigrams idx ts id) t d.
Proof.
  intros Ht H. unfold posted. rewrite InsertTrigrams_lookup_ne by assumption.
  now apply inserts_posted_mono.
Qed.

Lemma InsertTrigrams_posted_inv (idx : gmap Z (option (list Z))) (ts : list Z) (id t d : Z) :
  t <> trigram.TAllDocIDs ->
  posted (trigram.InsertTrigrams idx ts id) t d ->
  posted idx t d \/ (d = id /\ t ∈ ts).
Proof.
  intros Ht. unfold posted at 1. rewrite InsertTrigrams_lookup_ne by assumption.
  apply inserts_posted_inv.
Qed.

Lemma InsertTrigrams_hit (idx : gmap Z (option (list Z))) (ts : list Z) (id t : Z) :
  trigram.TAllDocIDs ∉ ts -> t ∈ ts ->
  pruned (trigram.InsertTrigrams idx ts id) t \/
  posted (trigram.InsertTrigrams idx ts id) t id.
Proof.
  intros Hts Ht. assert (t <> trigram.TAllDocIDs) as Hne by (intros ->; easy).
  unfold pruned, posted. rewrite InsertTrigrams_lookup_ne by assumption.
  now apply inserts_hit.
Qed.

(** ** The invariant of the posting index *)

Lemma index_ok_lists (idx : gmap Z (option (list Z))) (t : Z) (l : list Z) :
  index_ok idx -> idx !! t = Some (Some l) ->
  StronglySorted Z.lt l /\
  Forall (fun d => d < Z.of_nat (length (all_ids idx))) l.
Proof.
  intros [Hall _ Hs Hr] Hl. destruct (decide (t = trigram.TAllDocIDs)) as [-> | Ht].
  - assert (all_ids idx = l) as <-.
    { unfold all_ids, trigram.get. now rewrite Hl. }
    rewrite Hall at 1 2. split; [apply StronglySorted_seqZ |].
    apply Forall_forall. intros d Hd. apply elem_of_seqZ in Hd.
    lia.
  - split; [eauto |]. apply Forall_forall. intros d Hd.
    apply (Hr t d Ht). exists l. eauto.
Qed.

Lemma all_ids_New : all_ids trigram.NewIndex_nil = [].
Proof.
  unfold all_ids, trigram.get, trigram.NewIndex_nil.
  now rewrite lookup_singleton_eq.
Qed.

Lemma index_ok_New : index_ok trigram.NewIndex_nil.
Proof.
  split; rewrite ?all_ids_New.
  - reflexivity.
  - cbn. lia.
  - intros t l Ht. unfold trigram.NewIndex_nil.
    rewrite lookup_singleton_ne by congruence. discriminate.
  - intros t d Ht (l & Hl & _). revert Hl. unfold trigram.NewIndex_nil.
    rewrite lookup_singleton_ne by congruence. discriminate.
Qed.

Lemma index_ok_deletes (idx : gmap Z (option (list Z))) (id : Z) (ts : list Z) :
  trigram.TAllDocIDs ∉ ts -> index_ok idx ->
  index_ok (fold_left (trigram.delete1 id) ts idx).
Proof.
  intros Hts Hok. pose proof Hok as [Hall Hcap Hs Hr].
  split; rewrite ?deletes_all_ids by assumption; try assumption.
  - intros t l _. apply deletes_sorted. intros t' l' Hl'.
    now apply (index_ok_lists idx t' l').
  - intros t d Ht Hp. apply (Hr t d Ht). eapply deletes_posted_inv; eauto.
Qed.

Lemma next_id_fresh (idx : gmap Z (option (list Z))) :
  Z.of_nat (length (all_ids idx)) < 2 ^ 32 ->
  trigram.next_id idx = Z.of_nat (length (all_ids idx)).
Proof. intros H. unfold trigram.next_id, len. apply Z.mod_small. fold (all_ids idx). lia. Qed.

Lemma index_ok_InsertTrigrams (idx : gmap Z (option (list Z))) (ts : list Z) :
  trigram.TAllDocIDs ∉ ts -> index_ok idx ->
  Z.of_nat (length (all_ids idx)) < 2 ^ 32 ->
  index_ok (trigram.InsertTrigrams idx ts (Z.of_nat (length (all_ids idx)))).
Proof.
  intros Hts Hok Hcap. pose proof Hok as [Hall _ Hs Hr].
  set (n := length (all_ids idx)) in *.
  assert (Hlists : forall t l,
    fold_left (trigram.insert1 (Z.of_nat n)) ts idx !! t = Some (Some l) ->
    StronglySorted Z.lt l /\ Forall (fun d => d <= Z.of_nat n) l).
  { apply inserts_sorted. intros t l Hl.
    destruct (index_ok_lists idx t l Hok Hl) as [H1 H2]. split; [exact H1 |].
    eapply Forall_impl; [exact H2 |]. cbn. fold n. lia. }
  split; rewrite ?InsertTrigrams_all_ids by assumption; fold n;
    rewrite ?length_app; cbn [length].
  - fold n. rewrite Nat.add_1_r, seqZ_S, Z.add_0_l. now rewrite <- Hall.
  - fold n. lia.
  - intros t l Ht. rewrite InsertTrigrams_lookup_ne by assumption.
    intros Hl. now apply (Hlists t l).
  - intros t d Ht Hp. apply InsertTrigrams_posted_inv in Hp as [Hp | [-> _]];
      [| | assumption]; [| lia].
    apply (Hr t d Ht) in Hp. fold n in Hp. lia.
Qed.

Lemma index_ok_Prune (idx : gmap Z (option (list Z))) (pct : spec_float) :
  index_ok idx -> index_ok (trigram.Prune idx pct).
Proof.
  intros [Hall Hcap Hs Hr]. split; rewrite ?Prune_all_ids; try assumption.
  - intros t l Ht. destruct (Prune_lookup idx pct t) as [-> | (_ & _ & ->)];
      [now apply Hs | discriminate].
  - intros t d Ht Hp. apply (Hr t d Ht). eapply Prune_posted_inv; eauto.
Qed.

Lemma index_ok_Sort (idx : gmap Z (option (list Z))) :
  index_ok idx -> trigram.Sort idx = idx.
Proof.
  intros Hok. apply Sort_sorted. intros t l Hl.
  now apply (index_ok_lists idx t l).
Qed.

(** ** One document at a time *)

Section Upsert1.
Context {A : Analyzer}.

Lemma upsert1_new (svc : Service) (doc : Doc) :
  extIDs svc !! ID doc = None ->
  upsert1 svc doc =
  {| docs := <[trigram.next_id (idx svc) :=
                 {| meta.sa := verifier (Text doc); meta.id := ID doc |}]> (docs svc);
     extIDs := <[ID doc := trigram.next_id (idx svc)]> (extIDs svc);
     idx := trigram.InsertTrigrams (idx svc) (tgrams (Text doc))
              (trigram.next_id (idx svc)) |}.
Proof.
  intros H. unfold upsert1, verifier, tgrams, trigram.AddTrigrams. rewrite H.
  now destruct (analyze (Text doc)).
Qed.

Lemma upsert1_update (svc : Service) (doc : Doc) (docID : Z) :
  extIDs svc !! ID doc = Some docID ->
  upsert1 svc doc = upsert1 (forget svc doc docID) doc.
Proof.
  intros H. rewrite (upsert1_new (forget svc doc docID))
    by (cbn; apply lookup_delete_eq).
  unfold upsert1, verifier, tgrams, trigram.AddTrigrams, forget. rewrite H.
  destruct (analyze (PriorText doc)) as [pg pw].
  destruct (analyze (Text doc)) as [tg tw]. cbn.
  now rewrite insert_delete_eq.
Qed.

Lemma words_not_all (text : string) :
  trigram.TAllDocIDs ∉ snd (analyze text) ≫= trigram.windows.
Proof.
  intros H. apply list_elem_of_bind in H as (w & H & _).
  exact (windows_not_all _ H).
Qed.


Lemma forget_all_ids (svc : Service) (doc : Doc) (docID : Z) :
  all_ids (idx (forget svc doc docID)) = all_ids (idx svc).
Proof.
  unfold forget. cbn [idx]. rewrite Delete_fold.
  apply deletes_all_ids, words_not_all.
Qed.

Lemma Inv_forget (svc : Service) (txt : gmap Z string) (doc : Doc) (docID : Z) :
  Inv svc txt -> extIDs svc !! ID doc = Some docID ->
  Inv (forget svc doc docID) (delete (ID doc) txt).
Proof.
  intros [Hidx Hrange Hext Hdocs Hdom Hsize Hcomp Hsound] He.
  destruct (Hext _ _ He) as (text0 & Htext0 & Hdoc0).
  assert (Hother : forall e d, e <> ID doc -> extIDs svc !! e = Some d -> d <> docID).
  { intros e d Hne Hd ->. destruct (Hext _ _ Hd) as (? & _ & Hm). congruence. }
  split; rewrite ?forget_all_ids.
  - unfold forget; cbn [idx docs extIDs]. rewrite Delete_fold. apply index_ok_deletes; [apply words_not_all | exact Hidx].
  - unfold forget; cbn [idx docs extIDs]. intros d m Hd. apply lookup_delete_Some in Hd as [_ Hd]. eauto.
  - unfold forget; cbn [idx docs extIDs]. intros e d Hd. apply lookup_delete_Some in Hd as [Hne Hd].
    destruct (Hext _ _ Hd) as (text & Htext & Hm). exists text.
    assert (docID <> d) by (intros <-; now apply (Hother e docID)).
    now rewrite !lookup_delete_ne by assumption.
  - unfold forget; cbn [idx docs extIDs]. intros d m Hd. apply lookup_delete_Some in Hd as [Hne Hd].
    apply lookup_delete_Some. split; [| eauto].
    intros Heq. apply Hdocs in Hd. congruence.
  - unfold forget; cbn [idx docs extIDs]. now rewrite !dom_delete_L, Hdom.
  - unfold forget; cbn [idx docs extIDs]. rewrite !map_size_delete_Some by eauto.
    now rewrite Hsize.
  - unfold forget; cbn [idx docs extIDs]. intros e d text t Hd Htext Ht.
    apply lookup_delete_Some in Hd as [Hne Hd].
    rewrite lookup_delete_ne in Htext by assumption. rewrite Delete_fold.
    destruct (Hcomp e d text t Hd Htext Ht) as [Hp | Hp].
    + left. now apply deletes_pruned.
    + right. apply deletes_posted_ne; [| exact Hp].
      apply (Hother e d); congruence.
  - unfold forget; cbn [idx docs extIDs]. intros e d text t Hd Htext Ht Hp.
    apply lookup_delete_Some in Hd as [Hne Hd].
    rewrite lookup_delete_ne in Htext by assumption. rewrite Delete_fold in Hp.
    apply deletes_posted_inv in Hp. eauto.
Qed.

Lemma Inv_new (svc : Service) (txt : gmap Z string) (doc : Doc) :
  Inv svc txt -> extIDs svc !! ID doc = None ->
  Z.of_nat (length (all_ids (idx svc))) < 2 ^ 32 ->
  Inv (upsert1 svc doc) (<[ID doc := Text doc]> txt).
Proof.
  intros [Hidx Hrange Hext Hdocs Hdom Hsize Hcomp Hsound] He Hcap.
  rewrite (upsert1_new _ _ He), (next_id_fresh _ Hcap).
  set (n := Z.of_nat (length (all_ids (idx svc)))) in *.
  pose proof (tgrams_not_all (Text doc)) as Hts.
  assert (Hfresh : docs svc !! n = None).
  { destruct (docs svc !! n) eqn:E; [| reflexivity]. apply Hrange in E. lia. }
  assert (Hlive : forall e d, extIDs svc !! e = Some d -> d <> n /\ e <> ID doc).
  { intros e d Hd. destruct (Hext _ _ Hd) as (? & _ & Hm). split; congruence. }
  split; cbn [idx docs extIDs]; rewrite ?InsertTrigrams_all_ids by assumption;
    rewrite ?length_app; cbn [length].
  - now apply index_ok_InsertTrigrams.
  - intros d m Hd. apply lookup_insert_Some in Hd as [[<- _] | [_ Hd]];
      [| apply Hrange in Hd]; lia.
  - intros e d Hd. apply lookup_insert_Some in Hd as [[<- <-] | [Hne Hd]].
    + exists (Text doc). now rewrite !lookup_insert_eq.
    + destruct (Hext _ _ Hd) as (text & Htext & Hm). exists text.
      rewrite !lookup_insert_ne by (try apply (Hlive _ _ Hd); congruence). eauto.
  - intros d m Hd. apply lookup_insert_Some in Hd as [[<- <-] | [Hne Hd]].
    + apply lookup_insert_eq.
    + apply Hdocs in Hd. rewrite lookup_insert_ne; [exact Hd | congruence].
  - now rewrite !dom_insert_L, Hdom.
  - rewrite !map_size_insert_None by assumption. now rewrite Hsize.
  - intros e d text t Hd Htext Ht.
    apply lookup_insert_Some in Hd as [[<- <-] | [Hne Hd]].
    + rewrite lookup_insert_eq in Htext. injection Htext as <-.
      now apply InsertTrigrams_hit.
    + rewrite lookup_insert_ne in Htext by assumption.
      assert (t <> trigram.TAllDocIDs) as Hta.
      { intros ->. exact (tgrams_not_all _ Ht). }
      destruct (Hcomp e d text t Hd Htext Ht) as [Hp | Hp].
      * left. now apply InsertTrigrams_pruned.
      * right. now apply InsertTrigrams_posted_mono.
  - intros e d text t Hd Htext Hta Hp.
    apply InsertTrigrams_posted_inv in Hp; [| assumption].
    apply lookup_insert_Some in Hd as [[<- <-] | [Hne Hd]].
    + rewrite lookup_insert_eq in Htext. injection Htext as <-.
      destruct Hp as [Hp | [_ Hp]]; [| exact Hp].
      apply (ok_range _ Hidx) in Hp; [fold n in Hp; lia | assumption].
    + rewrite lookup_insert_ne in Htext by assumption.
      destruct Hp as [Hp | [-> _]]; [eauto |].
      now destruct (Hlive _ _ Hd).
Qed.

(** [upsert1] keeps the invariant while internal IDs last. *)
Lemma Inv_upsert1 (svc : Service) (txt : gmap Z string) (doc : Doc) :
  Inv svc txt -> Z.of_nat (length (all_ids (idx svc))) < 2 ^ 32 ->
  Inv (upsert1 svc doc) (<[ID doc := Text doc]> txt).
Proof.
  intros Hinv Hcap. destruct (extIDs svc !! ID doc) as [docID|] eqn:He.
  - rewrite (upsert1_update _ _ _ He), <- insert_delete_eq.
    apply Inv_new; [now apply Inv_forget | cbn; apply lookup_delete_eq |].
    now rewrite forget_all_ids.
  - now apply Inv_new.
Qed.

Lemma upsert1_all_ids (svc : Service) (doc : Doc) :
  all_ids (idx (upsert1 svc doc))
  = all_ids (idx svc) ++ [trigram.next_id (idx svc)].
Proof.
  destruct (extIDs svc !! ID doc) as [docID|] eqn:He.
  - rewrite (upsert1_update _ _ _ He), upsert1_new by (cbn; apply lookup_delete_eq).
    cbn [idx]. rewrite InsertTrigrams_all_ids by apply tgrams_not_all.
    change (fold_left _ _ _) with (idx (forget svc doc docID)).
    unfold trigram.next_id, len. fold (all_ids (idx (forget svc doc docID))).
    fold (all_ids (idx svc)). now rewrite forget_all_ids.
  - rewrite upsert1_new by assumption. cbn [idx].
    now rewrite InsertTrigrams_all_ids by apply tgrams_not_all.
Qed.

End Upsert1.

(** ** Batches and histories *)

Section Batches.
Context {A : Analyzer}.

Lemma validate_Upsert (svc : Service) (ds : list Doc) :
  validate svc 0 ds = None ->
  Upsert svc ds = (finish (fold_left upsert1 ds svc), None).
Proof. intros H. unfold Upsert. now rewrite H. Qed.

Lemma Upsert_ok_inv (svc svc' : Service) (ds : list Doc) :
  Upsert svc ds = (svc', None) ->
  validate svc 0 ds = None /\ svc' = finish (fold_left upsert1 ds svc).
Proof.
  unfold Upsert. destruct (validate svc 0 ds); [discriminate |].
  intros [= <-]. now split.
Qed.

Lemma batch_all_ids (svc : Service) (ds : list Doc) :
  length (all_ids (idx (fold_left upsert1 ds svc)))
  = (length (all_ids (idx svc)) + length ds)%nat.
Proof.
  revert svc. induction ds as [|doc ds IH]; intros svc; cbn [fold_left length]; [lia |].
  rewrite IH, upsert1_all_ids, length_app. cbn [length]. lia.
Qed.

Lemma finish_all_ids (svc : Service) :
  index_ok (idx svc) -> all_ids (idx (finish svc)) = all_ids (idx svc).
Proof.
  intros Hok. unfold finish. cbn [idx].
  rewrite (index_ok_Sort _ (index_ok_Prune _ pct_0_1 Hok)). apply Prune_all_ids.
Qed.

Lemma Inv_batch (svc : Service) (txt : gmap Z string) (ds : list Doc) :
  Inv svc txt ->
  Z.of_nat (length (all_ids (idx svc)) + length ds) <= 2 ^ 32 ->
  Inv (fold_left upsert1 ds svc) (texts_from txt ds).
Proof.
  revert svc txt. induction ds as [|doc ds IH]; intros svc txt Hinv Hcap; [exact Hinv |].
  cbn [fold_left length texts_from] in *. apply IH.
  - apply Inv_upsert1; [exact Hinv | lia].
  - rewrite upsert1_all_ids, length_app. cbn [length]. lia.
Qed.

Lemma Inv_finish (svc : Service) (txt : gmap Z string) :
  Inv svc txt -> Inv (finish svc) txt.
Proof.
  intros [Hidx Hrange Hext Hdocs Hdom Hsize Hcomp Hsound].
  pose proof (index_ok_Prune _ pct_0_1 Hidx) as Hidx'.
  split; rewrite ?finish_all_ids by assumption; try assumption;
    unfold finish; cbn [idx docs extIDs]; rewrite (index_ok_Sort _ Hidx').
  - exact Hidx'.
  - intros e d text t Hd Htext Ht.
    destruct (Hcomp e d text t Hd Htext Ht) as [Hp | Hp].
    + left. now apply Prune_pruned.
    + now apply Prune_posted.
  - intros e d text t Hd Htext Ht Hp. apply Prune_posted_inv in Hp. eauto.
Qed.

Lemma Inv_New : Inv NewService ∅.
Proof.
  split; cbn [idx docs extIDs NewService]; try (intros *; now rewrite lookup_empty).
  - apply index_ok_New.
  - now rewrite !dom_empty_L.
  - now rewrite !map_size_empty.
Qed.

Lemma texts_app (hist ds : list Doc) : texts (hist ++ ds) = texts_from (texts hist) ds.
Proof. unfold texts, texts_from. apply fold_left_app. Qed.

(** Every document of the history took one internal ID. *)
Lemma reachable_all_ids (hist : list Doc) (svc : Service) :
  reachable hist svc ->
  Z.of_nat (length hist) <= 2 ^ 32 ->
  length (all_ids (idx svc)) = length hist /\ Inv svc (texts hist).
Proof.
  induction 1 as [| hist svc ds svc' Hreach IH Hup]; intros Hcap.
  - split; [cbn [idx NewService]; now rewrite all_ids_New | apply Inv_New].
  - rewrite length_app in Hcap. destruct IH as [Hlen Hinv]; [lia |].
    apply Upsert_ok_inv in Hup as [_ ->].
    assert (Hinv' : Inv (fold_left upsert1 ds svc) (texts_from (texts hist) ds)).
    { apply Inv_batch; [exact Hinv | rewrite Hlen; lia]. }
    rewrite texts_app. split; [| now apply Inv_finish].
    rewrite finish_all_ids by apply Hinv'.
    now rewrite batch_all_ids, Hlen, length_app.
Qed.

Lemma reachable_Inv (hist : list Doc) (svc : Service) :
  reachable hist svc -> Z.of_nat (length hist) <= 2 ^ 32 -> Inv svc (texts hist).
Proof. intros H Hcap. now apply reachable_all_ids. Qed.

(** *** Stale postings *)








End Batches.

(** ** Queries on the posting index *)

Lemma intersect_sublist (r a b : list Z) :
  exists r', trigram.intersect r a b = r ++ r' /\ r' `sublist_of` a.
Proof.
  revert r b. induction a as [|x a IH]; intros r b.
  - exists []. split; [now rewrite app_nil_r | constructor].
  - induction b as [|y b IHb]; cbn [trigram.intersect].
    + exists []. split; [now rewrite app_nil_r | apply sublist_nil_l].
    + destruct (Z.eqb_spec x y) as [-> | Hne].
      * destruct (IH (r ++ [y]) b) as (r' & -> & Hs). exists (y :: r').
        split; [now rewrite <- app_assoc | now constructor].
      * destruct (x <? y).
        -- destruct (IH r (y :: b)) as (r' & -> & Hs). exists r'.
           split; [reflexivity | now constructor].
        -- exact IHb.
Qed.

Lemma intersect_complete (r a b : list Z) (d : Z) :
  StronglySorted Z.lt a -> StronglySorted Z.lt b ->
  d ∈ a -> d ∈ b -> d ∈ trigram.intersect r a b.
Proof.
  intros Ha. revert r b. induction Ha as [| x a Ha IH Hx]; intros r b Hb Hda Hdb;
    [inversion Hda |].
  induction Hb as [| y b Hb IHb Hy]; [inversion Hdb |].
  cbn [trigram.intersect]. rewrite Forall_forall in Hx, Hy.
  destruct (Z.eqb_spec x y) as [-> | Hne].
  - apply elem_of_cons in Hda as [-> | Hda].
    + destruct (intersect_sublist (r ++ [y]) a b) as (r' & -> & _).
      rewrite !elem_of_app, list_elem_of_singleton. tauto.
    + apply IH; [assumption .. |].
      apply elem_of_cons in Hdb as [-> | Hdb]; [| exact Hdb].
      specialize (Hx _ Hda). lia.
  - destruct (Z.ltb_spec x y) as [Hlt | Hge].
    + apply IH; [now constructor; [| apply Forall_forall] | | exact Hdb].
      apply elem_of_cons in Hda as [-> | Hda]; [| exact Hda].
      apply elem_of_cons in Hdb as [-> | Hdb]; [lia |].
      specialize (Hy _ Hdb). lia.
    + apply IHb. apply elem_of_cons in Hdb as [-> | Hdb]; [| exact Hdb].
      apply elem_of_cons in Hda as [-> | Hda]; [lia |].
      specialize (Hx _ Hda). lia.
Qed.

Lemma Filter_loop_sublist (idx : gmap Z (option (list Z))) (docs : option (list Z))
    (ts : list Z) :
  elems (trigram.Filter_loop idx docs ts) `sublist_of` elems docs.
Proof.
  revert docs. induction ts as [|t ts IH]; intros docs; cbn [trigram.Filter_loop];
    [reflexivity |].
  destruct (idx !! t) as [[d|]|]; [| apply IH | apply sublist_nil_l].
  etransitivity; [apply IH |]. cbn [elems].
  destruct (intersect_sublist [] (elems docs) d) as (r' & -> & Hs). exact Hs.
Qed.

Lemma Filter_loop_complete (idx : gmap Z (option (list Z))) (docs : option (list Z))
    (ts : list Z) (d : Z) :
  (forall t l, idx !! t = Some (Some l) -> StronglySorted Z.lt l) ->
  StronglySorted Z.lt (elems docs) -> d ∈ elems docs ->
  (forall t, t ∈ ts -> pruned idx t \/ posted idx t d) ->
  d ∈ elems (trigram.Filter_loop idx docs ts).
Proof.
  intros Hs. revert docs. induction ts as [|t ts IH]; intros docs Hdocs Hd Hts;
    [exact Hd |].
  cbn [trigram.Filter_loop].
  assert (Hts' : forall t, t ∈ ts -> pruned idx t \/ posted idx t d).
  { intros t' Ht'. apply Hts. now right. }
  destruct (Hts t) as [Hp | (l & Hl & Hdl)]; [left | |].
  - unfold pruned in Hp. rewrite Hp. now apply IH.
  - rewrite Hl. apply IH; cbn [elems]; [| | exact Hts'].
    + destruct (intersect_sublist [] (elems docs) l) as (r' & -> & Hsub).
      eapply StronglySorted_sublist; eauto.
    + apply intersect_complete; eauto.
Qed.

Lemma freqs_Some (idx : gmap Z (option (list Z))) (ts : list Z) :
  (forall t, t ∈ ts -> is_Some (idx !! t)) ->
  exists tf, trigram.freqs idx ts = Some tf /\
    forall t n, (t, n) ∈ tf -> t ∈ ts /\ n = len (trigram.get idx t).
Proof.
  induction ts as [|t ts IH]; intros Hts; cbn [trigram.freqs].
  - exists []. split; [reflexivity | intros t n H; inversion H].
  - destruct (Hts t) as [v Hv]; [left |]. rewrite Hv.
    destruct IH as (tf & -> & Htf); [intros t' Ht'; apply Hts; now right |].
    exists ((t, len v) :: tf). split; [reflexivity |].
    intros t' n H. apply elem_of_cons in H as [[= -> ->] | H].
    + split; [left |]. unfold trigram.get. now rewrite Hv.
    + destruct (Htf _ _ H). split; [now right | assumption].
Qed.

Lemma elem_of_tf_insert (x y : Z * nat) (l : list (Z * nat)) :
  y ∈ trigram.tf_insert x l <-> y = x \/ y ∈ l.
Proof.
  induction l as [|z l IH]; cbn [trigram.tf_insert].
  - rewrite list_elem_of_singleton, elem_of_nil. tauto.
  - destruct (snd x <=? snd z)%nat; rewrite !elem_of_cons, ?IH; tauto.
Qed.

Lemma elem_of_tf_sort (y : Z * nat) (l : list (Z * nat)) :
  y ∈ trigram.tf_sort l <-> y ∈ l.
Proof.
  induction l as [|x l IH]; cbn [trigram.tf_sort foldr]; [reflexivity |].
  fold (trigram.tf_sort l). now rewrite elem_of_tf_insert, IH, elem_of_cons.
Qed.

Lemma skip_zero_cases (l : list (Z * nat)) :
  trigram.skip_zero l = [] \/
  exists t n rest, trigram.skip_zero l = (t, S n) :: rest /\
    (t, S n) ∈ l /\ forall y, y ∈ rest -> y ∈ l.
Proof.
  induction l as [|[t [|n]] l IH]; cbn [trigram.skip_zero]; [now left | |].
  - destruct IH as [IH | (t' & n' & rest & -> & Hin & Hrest)]; [now left | right].
    exists t', n', rest. split; [reflexivity |].
    split; [now right | intros y Hy; right; eauto].
  - right. exists t, n, l. split; [reflexivity |].
    split; [left | intros y Hy; now right].
Qed.

Lemma get_elems_NoDup (idx : gmap Z (option (list Z))) (t : Z) :
  index_ok idx -> NoDup (elems (trigram.get idx t)).
Proof.
  intros Hok. unfold trigram.get.
  destruct (idx !! t) as [[l|]|] eqn:E; cbn [elems]; try apply NoDup_nil_2.
  apply StronglySorted_NoDup. now apply (index_ok_lists idx t l).
Qed.

(** The candidates of a query hold no document twice. *)
Lemma QueryTrigrams_NoDup (idx : gmap Z (option (list Z))) (ts : list Z) :
  index_ok idx -> NoDup (elems (trigram.QueryTrigrams idx ts)).
Proof.
  intros Hok. unfold trigram.QueryTrigrams.
  destruct (length ts =? 0)%nat; [now apply get_elems_NoDup |].
  destruct (trigram.freqs idx ts) as [tf|]; [| apply NoDup_nil_2].
  destruct (trigram.skip_zero (trigram.tf_sort tf)) as [|[t n] rest];
    [now apply get_elems_NoDup |].
  eapply sublist_NoDup; [| apply Filter_loop_sublist]. now apply get_elems_NoDup.
Qed.

(** A document listed under every trigram of the query that is not pruned
    is a candidate. *)
Lemma QueryTrigrams_complete (idx : gmap Z (option (list Z))) (ts : list Z) (d : Z) :
  index_ok idx -> d ∈ all_ids idx ->
  (forall t, t ∈ ts -> pruned idx t \/ posted idx t d) ->
  d ∈ elems (trigram.QueryTrigrams idx ts).
Proof.
  intros Hok Hd Hts. unfold trigram.QueryTrigrams.
  destruct (length ts =? 0)%nat; [exact Hd |].
  destruct (freqs_Some idx ts) as (tf & -> & Htf).
  { intros t Ht. destruct (Hts t Ht) as [Hp | (l & Hl & _)];
      [unfold pruned in Hp; rewrite Hp | rewrite Hl]; eauto. }
  destruct (skip_zero_cases (trigram.tf_sort tf))
    as [-> | (t & n & rest & -> & Hin & Hrest)]; [exact Hd |].
  apply elem_of_tf_sort, Htf in Hin as [Ht Hn].
  assert (Hlists : forall t l, idx !! t = Some (Some l) -> StronglySorted Z.lt l).
  { intros t' l Hl. now apply (index_ok_lists idx t' l). }
  destruct (Hts t Ht) as [Hp | (l & Hl & Hdl)].
  - unfold pruned in Hp. unfold trigram.get in Hn. now rewrite Hp in Hn.
  - unfold trigram.Filter, trigram.get. rewrite Hl.
    apply Filter_loop_complete; cbn [elems]; eauto.
    intros t' Ht'. apply Hts. apply list_elem_of_fmap in Ht' as ([t'' n'] & -> & Hy).
    apply Hrest, elem_of_tf_sort, Htf in Hy. apply Hy.
Qed.

(** ** Search *)

Section SearchFacts.
Context {A : Analyzer}.

Lemma Search_unfold (ctx : Context) (svc : Service) (query : string) :
  Search ctx svc query =
  match tgrams query with
  | [] => (None, Some (ErrNotEnoughContent query))
  | _ :: _ =>
      candidateLoop ctx svc (snd (analyze query))
        (elems (trigram.QueryTrigrams (idx svc) (tgrams query))) 0 []
  end.
Proof.
  unfold Search, tgrams. destruct (analyze query) as [[|t ts] words]; reflexivity.
Qed.

Lemma tokens_nil_tgrams (text : string) : tokens text = [] -> tgrams text = [].
Proof. unfold tokens, tgrams, analyze. now intros ->. Qed.

Lemma omap_cons_hit (svc : Service) (words : list string) (d : Z) (cs : list Z) :
  omap (hit svc words) (d :: cs) =
  match docs svc !! d with
  | Some doc =>
      if verify doc words then meta.id doc :: omap (hit svc words) cs
      else omap (hit svc words) cs
  | None => omap (hit svc words) cs
  end.
Proof.
  change (omap (hit svc words) (d :: cs))
    with (match hit svc words d with
          | Some y => y :: omap (hit svc words) cs
          | None => omap (hit svc words) cs
          end).
  unfold hit at 1. destruct (docs svc !! d) as [doc|]; [| reflexivity].
  now destruct (verify doc words).
Qed.

(** The loop either is cancelled or collects the hits in candidate order. *)
Lemma candidateLoop_cases (ctx : Context) (svc : Service) (words : list string)
    (candidates : list Z) (k : nat) (docIDs : list Z) :
  candidateLoop ctx svc words candidates k docIDs
    = (None, Some (ErrContext (ctx_Err ctx))) \/
  candidateLoop ctx svc words candidates k docIDs
    = (Some (docIDs ++ omap (hit svc words) candidates), None).
Proof.
  revert k docIDs. induction candidates as [|d cs IH]; intros k docIDs.
  - right. cbn. now rewrite app_nil_r.
  - cbn [candidateLoop]. rewrite omap_cons_hit.
    destruct (ctx_Done ctx k); [now left |].
    destruct (docs svc !! d) as [doc|]; [| apply IH].
    destruct (verify doc words); [| apply IH].
    destruct (IH (S k) (docIDs ++ [meta.id doc])) as [-> | ->]; [now left | right].
    now rewrite <- app_assoc.
Qed.

Lemma candidateLoop_never_done (ctx : Context) (svc : Service) (words : list string)
    (candidates : list Z) (k : nat) (docIDs : list Z) :
  (forall j, ctx_Done ctx j = false) ->
  candidateLoop ctx svc words candidates k docIDs
    = (Some (docIDs ++ omap (hit svc words) candidates), None).
Proof.
  intros Hctx. revert k docIDs. induction candidates as [|d cs IH]; intros k docIDs.
  - cbn. now rewrite app_nil_r.
  - cbn [candidateLoop]. rewrite omap_cons_hit, Hctx.
    destruct (docs svc !! d) as [doc|]; [| apply IH].
    destruct (verify doc words); [| apply IH].
    now rewrite IH, <- app_assoc.
Qed.

(** The first poll that finds the context done ends the loop. *)
Lemma candidateLoop_cancelled (ctx : Context) (svc : Service) (words : list string)
    (candidates : list Z) (k j : nat) (docIDs : list Z) :
  (j < length candidates)%nat ->
  ctx_Done ctx (k + j) = true ->
  (forall i, (i < j)%nat -> ctx_Done ctx (k + i) = false) ->
  candidateLoop ctx svc words candidates k docIDs
    = (None, Some (ErrContext (ctx_Err ctx))).
Proof.
  revert candidates k docIDs. induction j as [|j IH]; intros [|d cs] k docIDs Hj Hdone Hnot;
    cbn [length] in Hj; try lia; cbn [candidateLoop].
  - rewrite Nat.add_0_r in Hdone. now rewrite Hdone.
  - assert (Hk : ctx_Done ctx k = false).
    { rewrite <- (Nat.add_0_r k). apply Hnot. lia. }
    rewrite Hk.
    assert (Hrest : forall acc, candidateLoop ctx svc words cs (S k) acc
                                = (None, Some (ErrContext (ctx_Err ctx)))).
    { intros acc. apply IH; [lia | now rewrite Nat.add_succ_comm |].
      intros i Hi. rewrite Nat.add_succ_comm. apply Hnot. lia. }
    destruct (docs svc !! d) as [doc|]; [| apply Hrest].
    destruct (verify doc words); apply Hrest.
Qed.

Lemma replacer_lower_byte (c : ascii) :
  replacer_byte (to_lower c) = to_lower (replacer_byte c).
Proof. destruct c as [[] [] [] [] [] [] [] []]; reflexivity. Qed.

Lemma replacer_lower (s : string) :
  replacer_Replace (lower s) = lower (replacer_Replace s).
Proof.
  induction s as [|c s IH]; [reflexivity |].
  cbn. f_equal; [apply replacer_lower_byte | exact IH].
Qed.

Lemma validate_cons (svc : Service) (k : nat) (doc : Doc) (ds : list Doc) :
  validate svc k (doc :: ds) =
  if invalid svc doc then Some (validation_error k doc) else validate svc (S k) ds.
Proof.
  cbn [validate]. unfold invalid, validation_error.
  destruct (ID doc =? 0); [reflexivity |]. cbn [orb].
  now destruct (bool_decide (is_Some (extIDs svc !! ID doc))
                && (String.length (PriorText doc) =? 0)%nat).
Qed.

Lemma validate_spec (svc : Service) (k : nat) (ds : list Doc) :
  match validate svc k ds with
  | None => existsb (invalid svc) ds = false
  | Some err =>
      exists i doc, ds !! i = Some doc /\ invalid svc doc = true /\
        existsb (invalid svc) (take i ds) = false /\
        err = validation_error (k + i) doc
  end.
Proof.
  revert k. induction ds as [|doc ds IH]; intros k; [reflexivity |].
  rewrite validate_cons. cbn [existsb]. destruct (invalid svc doc) eqn:E.
  - exists 0%nat, doc. rewrite Nat.add_0_r. now repeat split.
  - specialize (IH (S k)). destruct (validate svc (S k) ds) as [err|]; [| exact IH].
    destruct IH as (i & doc' & Hi & Hinv & Hbefore & ->).
    exists (S i), doc'. cbn [take existsb]. rewrite E, Nat.add_succ_r.
    now repeat split.
Qed.

End SearchFacts.

(** ** Verification against the suffix array *)

Section Verify.
Context {A : Analyzer}.

Lemma verifier_data (text : string) :
  sa_data (verifier text) = sa_join (map (String "_"%char) (tokens text)).
Proof. unfold verifier. cbn [sa_data]. now rewrite sa_text_join, analyze_words. Qed.

Lemma verify_word (text : string) (e : Z) (words : list string) :
  verify {| meta.sa := verifier text; meta.id := e |} words = true <->
  forall word, word ∈ words ->
    word <> EmptyString /\
    occursb word (sa_join (map (String "_"%char) (tokens text))) = true.
Proof.
  unfold verify. rewrite forallb_forall. cbn [meta.sa].
  split; intros H word Hw.
  - apply list_elem_of_In, H, bool_decide_eq_true, Lookup_found in Hw.
    now rewrite verifier_data in Hw.
  - apply bool_decide_eq_true, Lookup_found. rewrite verifier_data.
    now apply H, list_elem_of_In.
Qed.

(** Query tokens that are prefixes of indexed tokens verify. *)
Lemma verify_prefixes (text query : string) (e : Z) :
  (forall tok, tok ∈ tokens query ->
     exists w, w ∈ tokens text /\ has_prefix tok w = true) ->
  verify {| meta.sa := verifier text; meta.id := e |} (snd (analyze query)) = true.
Proof.
  intros H. apply verify_word. intros word Hw. rewrite analyze_words in Hw.
  apply list_elem_of_fmap in Hw as (tok & -> & Htok). split; [discriminate |].
  destruct (H tok Htok) as (w & Hw & Hp). eapply sa_join_prefix; eauto.
Qed.

(** A query that verifies has only prefixes of indexed tokens. *)
Lemma verify_prefixes_inv (text query : string) (e : Z) (tok : string) :
  verify {| meta.sa := verifier text; meta.id := e |} (snd (analyze query)) = true ->
  Forall no_marker (tokens text) -> tok ∈ tokens query -> no_delim tok ->
  exists w, w ∈ tokens text /\ has_prefix tok w = true.
Proof.
  intros H Htext Htok Hd. apply sa_join_found; [assumption .. |].
  rewrite verify_word in H. apply H. rewrite analyze_words.
  apply list_elem_of_fmap. eauto.
Qed.

Lemma NoDup_omap_inj {X Y : Type} (f : X -> option Y) (l : list X) :
  NoDup l ->
  (forall x x' y, x ∈ l -> x' ∈ l -> f x = Some y -> f x' = Some y -> x = x') ->
  NoDup (omap f l).
Proof.
  induction 1 as [| x l Hx Hl IH]; intros Hinj; [constructor |].
  change (omap f (x :: l))
    with (match f x with Some y => y :: omap f l | None => omap f l end).
  assert (IH' : NoDup (omap f l)).
  { apply IH. intros a b y Ha Hb. apply Hinj; now right. }
  destruct (f x) as [y|] eqn:E; [| exact IH']. constructor; [| exact IH'].
  intros Hy. apply list_elem_of_omap in Hy as (x' & Hx' & Hfx').
  assert (x = x') as <-; [| easy].
  apply (Hinj x x' y); [left | now right | assumption ..].
Qed.


Lemma hit_Some (svc : Service) (words : list string) (d e : Z) :
  hit svc words d = Some e <->
  exists m, docs svc !! d = Some m /\ verify m words = true /\ meta.id m = e.
Proof.
  unfold hit. destruct (docs svc !! d) as [m|]; [| split; [easy | now intros (? & ? & _)]].
  destruct (verify m words) eqn:E; split.
  - intros [= <-]. eauto.
  - now intros (? & [= <-] & _ & ->).
  - discriminate.
  - intros (? & [= <-] & ? & _). congruence.
Qed.

End Verify.

(** ** Search on a consistent service *)

Section SearchInv.
Context {A : Analyzer}.
Variables (svc : Service) (txt : gmap Z string).
Hypothesis Hinv : Inv svc txt.

Lemma hits_NoDup (words : list string) (ts : list Z) :
  NoDup (omap (hit svc words) (elems (trigram.QueryTrigrams (idx svc) ts))).
Proof.
  apply NoDup_omap_inj; [apply QueryTrigrams_NoDup, Hinv |].
  intros d d' e _ _ Hd Hd'.
  apply hit_Some in Hd as (m & Hm & _ & He), Hd' as (m' & Hm' & _ & He').
  apply (inv_docs _ _ Hinv) in Hm, Hm'. congruence.
Qed.

(** Who is in the result is indexed and verifies. *)
Lemma hits_inv (words : list string) (cands : list Z) (e : Z) :
  e ∈ omap (hit svc words) cands ->
  exists text, txt !! e = Some text /\
    verify {| meta.sa := verifier text; meta.id := e |} words = true.
Proof.
  intros H. apply list_elem_of_omap in H as (d & _ & Hd).
  apply hit_Some in Hd as (m & Hm & Hv & He).
  pose proof (inv_docs _ _ Hinv _ _ Hm) as Hext. rewrite He in Hext.
  destruct (inv_ext _ _ Hinv _ _ Hext) as (text & Htext & Hm').
  exists text. split; [exact Htext |]. congruence.
Qed.

(** Who is indexed with all the trigrams of the query and verifies is in
    the result. *)
Lemma hits_complete (query text : string) (e : Z) :
  txt !! e = Some text ->
  (forall t, t ∈ tgrams query -> t ∈ tgrams text) ->
  verify {| meta.sa := verifier text; meta.id := e |} (snd (analyze query)) = true ->
  e ∈ omap (hit svc (snd (analyze query)))
        (elems (trigram.QueryTrigrams (idx svc) (tgrams query))).
Proof.
  intros Htext Hts Hv.
  assert (He : is_Some (extIDs svc !! e)).
  { apply elem_of_dom. rewrite (inv_dom _ _ Hinv). apply elem_of_dom. eauto. }
  destruct He as [d Hd].
  destruct (inv_ext _ _ Hinv _ _ Hd) as (text' & Htext' & Hm).
  assert (text' = text) as -> by congruence.
  apply list_elem_of_omap. exists d. split.
  - apply QueryTrigrams_complete; [apply Hinv | |].
    + rewrite (ok_all _ (inv_idx _ _ Hinv)). apply elem_of_seqZ.
      pose proof (inv_docs_range _ _ Hinv _ _ Hm). lia.
    + intros t Ht. eapply (inv_complete _ _ Hinv); eauto.
  - apply hit_Some. eauto.
Qed.

End SearchInv.

Section Prefixes.
Context {A : Analyzer}.

Lemma tgrams_single (p : string) (t : Z) :
  tokens p = [p] -> t ∈ tgrams p <-> t ∈ trigram.windows (String "_"%char p).
Proof.
  intros Hp. rewrite elem_of_tgrams, Hp. split.
  - intros (tok & Htok & Ht). now apply list_elem_of_singleton in Htok as ->.
  - intros Ht. exists p. split; [left | exact Ht].
Qed.

Lemma tgrams_single_nonempty (p : string) :
  tokens p = [p] -> (2 <= String.length p)%nat -> tgrams p <> [].
Proof.
  intros Hp Hlen Hnil. destruct p as [|a [|b p]]; cbn in Hlen; try lia.
  assert (H : trigram.pack "_" a b ∈ tgrams (String a (String b p))).
  { apply tgrams_single; [exact Hp | left]. }
  rewrite Hnil in H. inversion H.
Qed.

Lemma tgrams_prefix (p w text : string) (t : Z) :
  tokens p = [p] -> w ∈ tokens text -> has_prefix p w = true ->
  t ∈ tgrams p -> t ∈ tgrams text.
Proof.
  intros Hp Hw Hpw Ht. apply (tgrams_single p t Hp) in Ht.
  apply elem_of_tgrams. exists w. split; [exact Hw |].
  apply (windows_prefix (String "_"%char p)); [| exact Ht].
  cbn [has_prefix]. now rewrite Ascii.eqb_refl.
Qed.

Lemma dom_texts_from (txt : gmap Z string) (ds : list Doc) :
  dom (texts_from txt ds) = dom txt ∪ list_to_set (ID <$> ds).
Proof.
  revert txt. induction ds as [|doc ds IH]; intros txt; cbn [texts_from fold_left].
  - cbn. now rewrite union_empty_r_L.
  - fold (texts_from (<[ID doc := Text doc]> txt) ds). rewrite IH, dom_insert_L.
    cbn [fmap list_fmap list_to_set]. apply set_eq. intros x.
    rewrite !elem_of_union. tauto.
Qed.

Lemma dom_texts (hist : list Doc) : dom (texts hist) = list_to_set (ID <$> hist).
Proof. unfold texts. now rewrite dom_texts_from, dom_empty_L, union_empty_l_L. Qed.

End Prefixes.

Section SearchResults.
Context {A : Analyzer}.

Lemma Search_TODO_hits (svc : Service) (query : string) :
  tgrams query <> [] ->
  Search context_TODO svc query
  = (Some (omap (hit svc (snd (analyze query)))
             (elems (trigram.QueryTrigrams (idx svc) (tgrams query)))), None).
Proof.
  intros H. rewrite Search_unfold.
  destruct (tgrams query) as [|t ts] eqn:E; [congruence |].
  now rewrite candidateLoop_never_done.
Qed.

Lemma Search_result_hits (ctx : Context) (svc : Service) (query : string) (l : list Z) :
  fst (Search ctx svc query) = Some l ->
  l = omap (hit svc (snd (analyze query)))
        (elems (trigram.QueryTrigrams (idx svc) (tgrams query))).
Proof.
  rewrite Search_unfold. destruct (tgrams query) as [|t ts] eqn:E; [discriminate |].
  destruct (candidateLoop_cases ctx svc (snd (analyze query))
              (elems (trigram.QueryTrigrams (idx svc) (t :: ts))) 0 [])
    as [-> | ->]; [discriminate |].
  now intros [= <-].
Qed.

(** A prefix of two bytes or more of an indexed token finds the document. *)
Lemma Search_includes (svc : Service) (txt : gmap Z string) (e : Z) (text w p : string) :
  Inv svc txt -> txt !! e = Some text ->
  w ∈ tokens text -> has_prefix p w = true ->
  (2 <= String.length p)%nat -> tokens p = [p] ->
  exists l, Search context_TODO svc p = (Some l, None) /\ e ∈ l.
Proof.
  intros Hinv Htext Hw Hpw Hlen Hp.
  rewrite Search_TODO_hits by now apply tgrams_single_nonempty.
  eexists. split; [reflexivity |].
  apply (hits_complete svc txt Hinv p text e Htext).
  - intros t. now apply (tgrams_prefix p w text t).
  - apply verify_prefixes. intros tok Htok. rewrite Hp in Htok.
    apply list_elem_of_singleton in Htok as ->. eauto.
Qed.

(** A query with a token that is no prefix of any token of the document
    does not find it. *)
Lemma Search_excludes (svc : Service) (txt : gmap Z string) (ctx : Context)
    (e : Z) (text query tok : string) (l : list Z) :
  Inv svc txt -> txt !! e = Some text ->
  Forall no_marker (tokens text) ->
  tok ∈ tokens query -> no_delim tok ->
  (forall w, w ∈ tokens text -> has_prefix tok w = false) ->
  fst (Search ctx svc query) = Some l -> e ∉ l.
Proof.
  intros Hinv Htext Hclean Htok Hd Hno Hl He.
  rewrite (Search_result_hits _ _ _ _ Hl) in He.
  apply (hits_inv svc txt Hinv) in He as (text' & Htext' & Hv).
  assert (text' = text) as -> by congruence.
  destruct (verify_prefixes_inv text query e tok Hv Hclean Htok Hd) as (w & Hw & Hp).
  rewrite (Hno w Hw) in Hp. discriminate.
Qed.

End SearchResults.

(** ** The modelled analyzer

    The assumptions the claims make on the analyzer hold for the modelled
    one, on every text. *)

Section Model.
Local Existing Instance model_Analyze.

Lemma to_lower_idem (c : ascii) : to_lower (to_lower c) = to_lower c.
Proof. destruct c as [[] [] [] [] [] [] [] []]; reflexivity. Qed.

Lemma model_folds_case (s : string) : folds_case s.
Proof.
  unfold folds_case, stringy_Analyze, model_Analyze, lower. f_equal.
  induction s as [|c s IH]; [reflexivity |].
  cbn. now rewrite to_lower_idem, IH.
Qed.

Lemma is_alnum_fixed (c : ascii) :
  is_alnum c = true -> replacer_byte c = c /\ to_lower c = c.
Proof.
  destruct c as [[] [] [] [] [] [] [] []]; cbn; intros H;
    first [discriminate H | split; reflexivity].
Qed.

Lemma all_alnum_fixed (p : string) :
  all_alnum p = true -> str_map to_lower (replacer_Replace p) = p.
Proof.
  induction p as [|c p IH]; [reflexivity |]. cbn [all_alnum].
  intros H. apply andb_true_iff in H as [Hc Hp].
  destruct (is_alnum_fixed c Hc) as [H1 H2].
  cbn. now rewrite H1, H2, (IH Hp).
Qed.

Lemma all_alnum_app (a b : string) :
  all_alnum (a ++ b) = all_alnum a && all_alnum b.
Proof.
  induction a as [|c a IH]; [reflexivity |].
  rewrite str_app_cons. cbn [all_alnum]. now rewrite IH, andb_assoc.
Qed.

Lemma fields_alnum (cur s : string) :
  all_alnum cur = true ->
  Forall (fun w => all_alnum w = true /\ w <> EmptyString) (fields cur s).
Proof.
  revert cur. induction s as [|c s IH]; intros cur Hcur; cbn [fields].
  - destruct cur; repeat constructor; [exact Hcur | discriminate].
  - destruct (is_alnum c) eqn:Ec.
    + apply IH. rewrite all_alnum_app, Hcur. cbn. now rewrite Ec.
    + apply Forall_app. split; [| now apply IH].
      destruct cur; repeat constructor; [exact Hcur | discriminate].
Qed.

Lemma fields_word (cur p : string) :
  all_alnum p = true -> (cur ++ p)%string <> EmptyString ->
  fields cur p = [(cur ++ p)%string].
Proof.
  revert cur. induction p as [|c p IH]; intros cur Hp Hne; cbn [fields].
  - assert (cur ++ EmptyString = cur)%string as Hcur.
    { clear. induction cur as [|x cur IH]; [reflexivity |].
      now rewrite str_app_cons, IH. }
    rewrite Hcur in *. destruct cur; [congruence | reflexivity].
  - cbn [all_alnum] in Hp. apply andb_true_iff in Hp as [Hc Hp]. rewrite Hc.
    rewrite IH; rewrite ?str_app_assoc; [reflexivity | exact Hp |].
    destruct cur; discriminate.
Qed.

(** The tokens of the model hold letters and digits only. *)
Lemma model_tokens_alnum (text : string) :
  Forall (fun w => all_alnum w = true /\ w <> EmptyString) (tokens text).
Proof. now apply fields_alnum. Qed.

(** A text of letters and digits is its own token. *)
Lemma model_tokens_self (p : string) :
  all_alnum p = true -> p <> EmptyString -> tokens p = [p].
Proof.
  intros Hp Hne. unfold tokens, stringy_Analyze, model_Analyze.
  rewrite (all_alnum_fixed p Hp). now apply (fields_word EmptyString).
Qed.

Lemma all_alnum_no_marker (w : string) : all_alnum w = true -> no_marker w.
Proof.
  unfold no_marker. induction w as [|c w IH]; [reflexivity |]. cbn [char_in all_alnum].
  intros H. apply andb_true_iff in H as [Hc Hw]. rewrite (IH Hw), orb_false_r.
  destruct (Ascii.eqb_spec "_"%char c) as [<- | ]; [discriminate Hc | reflexivity].
Qed.

Lemma all_alnum_no_delim (w : string) : all_alnum w = true -> no_delim w.
Proof.
  unfold no_delim. induction w as [|c w IH]; [reflexivity |]. cbn [char_in all_alnum].
  intros H. apply andb_true_iff in H as [Hc Hw]. rewrite (IH Hw), orb_false_r.
  destruct (Ascii.eqb_spec zero c) as [<- | ]; [discriminate Hc | reflexivity].
Qed.

Lemma all_alnum_prefix (p w : string) :
  has_prefix p w = true -> all_alnum w = true -> all_alnum p = true.
Proof.
  revert w. induction p as [|a p IH]; intros [|b w]; cbn; try easy.
  destruct (Ascii.eqb_spec a b) as [<- |]; [| discriminate].
  intros Hp H. apply andb_true_iff in H as [Ha Hw]. rewrite Ha. eauto.
Qed.

Lemma model_tokens_clean (text : string) : Forall no_marker (tokens text).
Proof.
  eapply Forall_impl; [apply model_tokens_alnum |].
  intros w [Hw _]. now apply all_alnum_no_marker.
Qed.

(** With the modelled analyzer, every prefix of two bytes or more of a token
    of an indexed document finds the document. *)
Lemma model_Search_includes (hist : list Doc) (svc : Service) (e : Z)
    (text w p : string) :
  reachable hist svc -> Z.of_nat (length hist) <= 2 ^ 32 ->
  texts hist !! e = Some text ->
  w ∈ tokens text -> has_prefix p w = true -> (2 <= String.length p)%nat ->
  exists l, Search context_TODO svc p = (Some l, None) /\ e ∈ l.
Proof.
  intros Hreach Hcap Htext Hw Hp Hlen.
  pose proof (model_tokens_alnum text) as Hall. rewrite Forall_forall in Hall.
  destruct (Hall w Hw) as [Hwa _].
  apply (Search_includes svc (texts hist) e text w p); try assumption.
  - now apply reachable_Inv.
  - apply model_tokens_self; [eapply all_alnum_prefix; eauto |].
    destruct p; [cbn in Hlen; lia | discriminate].
Qed.

(** With the modelled analyzer, a query of letters and digits that starts
    no token of a document does not find it. *)
Lemma model_Search_excludes (hist : list Doc) (svc : Service) (ctx : Context)
    (e : Z) (text s : string) (l : list Z) :
  reachable hist svc -> Z.of_nat (length hist) <= 2 ^ 32 ->
  texts hist !! e = Some text ->
  all_alnum s = true -> s <> EmptyString ->
  (forall w, w ∈ tokens text -> has_prefix s w = false) ->
  fst (Search ctx svc s) = Some l -> e ∉ l.
Proof.
  intros Hreach Hcap Htext Hs Hne Hno Hl.
  apply (Search_excludes svc (texts hist) ctx e text s s l); try assumption.
  - now apply reachable_Inv.
  - apply model_tokens_clean.
  - rewrite model_tokens_self by assumption. left.
  - now apply all_alnum_no_delim.
Qed.

Lemma is_space_fixed (c : ascii) :
  is_space c = true ->
  is_alnum (to_lower (replacer_byte c)) = false.
Proof.
  unfold is_space. intros H.
  repeat (apply orb_true_iff in H as [H | H]);
    apply Ascii.eqb_eq in H; subst c; reflexivity.
Qed.

(** The modelled analyzer finds no token in white space, and [Search]
    refuses the query. *)
Lemma model_tokens_blank (s : string) : all_space s = true -> tokens s = [].
Proof.
  unfold tokens, stringy_Analyze, model_Analyze.
  induction s as [|c s IH]; [reflexivity |]. cbn [all_space].
  intros H. apply andb_true_iff in H as [Hc Hs]. cbn.
  rewrite (is_space_fixed c Hc). cbn. exact (IH Hs).
Qed.

Lemma model_Search_blank (ctx : Context) (svc : Service) (s : string) :
  all_space s = true ->
  Search ctx svc s = (None, Some (ErrNotEnoughContent s)).
Proof.
  intros H. rewrite Search_unfold.
  now rewrite (tokens_nil_tgrams s (model_tokens_blank s H)).
Qed.

End Model.

(** * The claims *)

Section Claims.
Context {A : Analyzer}.

(** C5.  A batch with an invalid document — a zero ID, or an ID that is
    indexed already and comes without [PriorText] — is rejected as a whole:
    [Upsert] reports the first such document, by its index in the batch, and
    the service is the one it was. *)
Theorem Upsert_rejects_invalid_batch (svc : Service) (ds : list Doc) :
  existsb (invalid svc) ds = true ->
  exists i doc,
    ds !! i = Some doc /\ invalid svc doc = true /\
    existsb (invalid svc) (take i ds) = false /\
    Upsert svc ds = (svc, Some (validation_error i doc)).
Proof.
  intros Hex. unfold Upsert. pose proof (validate_spec svc 0 ds) as Hv.
  destruct (validate svc 0 ds) as [err|]; [| congruence].
  destruct Hv as (i & doc & Hi & Hinv & Hbefore & ->).
  exists i, doc. now repeat split.
Qed.

(** C6.  A query without a trigram — so any query without a token, as the
    empty one — gets the "not enough content" error and the nil slice; a
    query with a trigram never gets that error. *)
Theorem Search_not_enough_content (ctx : Context) (svc : Service) (query : string) :
  (tgrams query = [] ->
     Search ctx svc query = (None, Some (ErrNotEnoughContent query))) /\
  (tokens query = [] ->
     Search ctx svc query = (None, Some (ErrNotEnoughContent query))) /\
  (tgrams query <> [] ->
     outcome_of (snd (Search ctx svc query)) <> NotEnoughContent).
Proof.
  rewrite Search_unfold. repeat split.
  - now intros ->.
  - intros H. now rewrite (tokens_nil_tgrams _ H).
  - intros H. destruct (tgrams query) as [|t ts]; [congruence |].
    destruct (candidateLoop_cases ctx svc (snd (analyze query))
                (elems (trigram.QueryTrigrams (idx svc) (t :: ts))) 0 [])
      as [-> | ->]; discriminate.
Qed.

(** C7.  [Search] polls the context once before each candidate.  When the
    poll before candidate [j] is the first to find it done, the result is
    the nil slice and the context's error, whatever was collected so far. *)
Theorem Search_cancelled (ctx : Context) (svc : Service) (query : string) (j : nat) :
  tgrams query <> [] ->
  (j < length (elems (trigram.QueryTrigrams (idx svc) (tgrams query))))%nat ->
  ctx_Done ctx j = true ->
  (forall i, (i < j)%nat -> ctx_Done ctx i = false) ->
  Search ctx svc query = (None, Some (ErrContext (ctx_Err ctx))).
Proof.
  intros Hts Hj Hdone Hnot. rewrite Search_unfold.
  destruct (tgrams query) as [|t ts]; [congruence |].
  now apply (candidateLoop_cancelled ctx svc _ _ 0 j).
Qed.

(** C8.  Two queries that differ in case only get the same documents and
    the same kind of error, provided the analyzer folds case on them. *)
Theorem Search_case_insensitive (ctx : Context) (svc : Service) (x X : string) :
  folds_case (replacer_Replace x) -> folds_case (replacer_Replace X) ->
  lower x = lower X ->
  fst (Search ctx svc x) = fst (Search ctx svc X) /\
  outcome_of (snd (Search ctx svc x)) = outcome_of (snd (Search ctx svc X)).
Proof.
  unfold folds_case. intros Hx HX Heq.
  assert (Han : analyze x = analyze X).
  { unfold analyze. rewrite <- Hx, <- HX, <- !replacer_lower. now rewrite Heq. }
  rewrite !Search_unfold. unfold tgrams. rewrite Han.
  destruct (analyze X).1; [now split |]. now split.
Qed.

(** C10.  After successful [Upsert]s on a fresh service, and while internal
    IDs last, [docs] and [extIDs] are in bijection: they have the same size,
    every external ID leads to a metadata entry that names it, and every
    metadata entry is reached from the one external ID it names.  So
    [DocCount] is the number of distinct external IDs upserted, and no
    [Search] returns an external ID twice. *)
Theorem docs_extIDs_bijection (hist : list Doc) (svc : Service) :
  reachable hist svc -> Z.of_nat (length hist) <= 2 ^ 32 ->
  size (docs svc) = size (extIDs svc) /\
  (forall e d, extIDs svc !! e = Some d ->
     exists m, docs svc !! d = Some m /\ meta.id m = e) /\
  (forall d m, docs svc !! d = Some m ->
     forall e, extIDs svc !! e = Some d <-> e = meta.id m) /\
  DocCount svc = size (list_to_set (ID <$> hist) : gset Z) /\
  (forall ctx query l, fst (Search ctx svc query) = Some l -> NoDup l).
Proof.
  intros Hreach Hcap. pose proof (reachable_Inv _ _ Hreach Hcap) as Hinv.
  split; [apply Hinv |]. split; [| split; [| split]].
  - intros e d Hd. destruct (inv_ext _ _ Hinv _ _ Hd) as (text & _ & Hm). eauto.
  - intros d m Hm e. split.
    + intros Hd. destruct (inv_ext _ _ Hinv _ _ Hd) as (text & _ & Hm').
      rewrite Hm in Hm'. now injection Hm' as ->.
    + intros ->. now apply (inv_docs _ _ Hinv).
  - unfold DocCount. rewrite (inv_size _ _ Hinv), <- dom_texts, <- (inv_dom _ _ Hinv).
    symmetry. apply size_dom.
  - intros ctx query l Hl. rewrite (Search_result_hits _ _ _ _ Hl).
    now apply (hits_NoDup svc (texts hist)).
Qed.


(** C2, amended.  For a document indexed with [text]: a prefix of two bytes
    or more of one of its tokens, searched as a query of its own, returns
    the document; and a query that is a token of its own and a prefix of no
    token of the document does not return it (so not a proper suffix of a
    token that starts no other token), the tokens holding no marker byte and
    the query no delimiter byte. *)
Theorem Search_prefix (hist : list Doc) (svc : Service) (e : Z) (text : string) :
  reachable hist svc -> Z.of_nat (length hist) <= 2 ^ 32 ->
  texts hist !! e = Some text ->
  (forall w p, w ∈ tokens text -> has_prefix p w = true ->
     (2 <= String.length p)%nat -> tokens p = [p] ->
     exists l, Search context_TODO svc p = (Some l, None) /\ e ∈ l) /\
  (forall ctx s l, Forall no_marker (tokens text) ->
     tokens s = [s] -> no_delim s ->
     (forall w, w ∈ tokens text -> has_prefix s w = false) ->
     fst (Search ctx svc s) = Some l -> e ∉ l).
Proof.
  intros Hreach Hcap Htext. pose proof (reachable_Inv _ _ Hreach Hcap) as Hinv.
  split.
  - intros w p Hw Hp Hlen Htok. eapply Search_includes; eauto.
  - intros ctx s l Hclean Hs Hd Hno Hl.
    apply (Search_excludes svc (texts hist) ctx e text s s l); try assumption.
    rewrite Hs. left.
Qed.


(** C9, amended.  A document with a non-zero ID and the empty text, coming
    with a non-empty [PriorText] when its ID is indexed already, is
    upserted without error while internal IDs last, and no [Search] returns
    its ID afterwards, the analyzer finding no token in the empty text. *)
Theorem Upsert_empty_text (hist : list Doc) (svc : Service) (doc : Doc) :
  reachable hist svc -> Z.of_nat (length hist) < 2 ^ 32 ->
  stringy_Analyze EmptyString = [] ->
  ID doc <> 0 -> Text doc = EmptyString ->
  (is_Some (extIDs svc !! ID doc) -> PriorText doc <> EmptyString) ->
  exists svc',
    Upsert svc [doc] = (svc', None) /\
    forall ctx query l, fst (Search ctx svc' query) = Some l -> ID doc ∉ l.
Proof.
  intros Hreach Hcap Hnil Hid Htext Hprior.
  assert (Hvalid : validate svc 0 [doc] = None).
  { rewrite validate_cons. unfold invalid.
    destruct (Z.eqb_spec (ID doc) 0) as [| _]; [easy |]. cbn [orb].
    destruct (bool_decide_reflect (is_Some (extIDs svc !! ID doc))) as [Hs | _];
      [| reflexivity].
    destruct (PriorText doc); [now destruct (Hprior Hs) | reflexivity]. }
  pose proof (validate_Upsert svc [doc] Hvalid) as Hup.
  eexists. split; [exact Hup |].
  pose proof (reachable_Upsert _ _ _ _ Hreach Hup) as Hreach'.
  apply reachable_Inv in Hreach'; [| rewrite length_app; cbn [length]; lia].
  assert (Htxt : texts (hist ++ [doc]) !! ID doc = Some EmptyString).
  { rewrite texts_app. cbn [texts_from fold_left]. rewrite Htext. apply lookup_insert_eq. }
  intros ctx query l Hl He.
  pose proof (Search_result_hits _ _ _ _ Hl) as Heq.
  assert (Hq : tgrams query <> []).
  { intros Hq. rewrite Search_unfold, Hq in Hl. discriminate. }
  rewrite Heq in He. apply (hits_inv _ _ Hreach') in He as (text & Htext' & Hv).
  rewrite Htxt in Htext'. injection Htext' as <-.
  rewrite verify_word in Hv.
  assert (Htoks : tokens EmptyString = []) by exact Hnil.
  destruct (tokens query) as [|tok toks] eqn:Etok.
  - apply Hq. now apply tokens_nil_tgrams.
  - destruct (Hv (String "_"%char tok)) as [_ Hocc].
    + rewrite analyze_words, Etok. left.
    + rewrite Htoks in Hocc. discriminate Hocc.
Qed.

End Claims.

(** * The package's tests and further scenarios, by evaluation *)

Section Scenarios.
Local Existing Instance model_Analyze.
Local Open Scope string_scope.

Ltac evaluate := vm_compute; reflexivity.

(** [TestService_Search], case by case. *)
Example TestService_Search :
  Upsert NewService [docOne; docTwo; docThree] = (svc3, None) /\
  Search context_TODO svc3 "Fox" = (Some [1], None) /\
  Search context_TODO svc3 "brow" = (Some [1], None) /\
  Search context_TODO svc3 "row" = (Some [], None) /\
  Search context_TODO svc3 "picpep" = (Some [], None) /\
  Search context_TODO svc3 "fox sea" = (Some [], None) /\
  Search context_TODO svc3 "She shore" = (Some [2], None) /\
  Search context_TODO svc3 "pET PiP" = (Some [3], None) /\
  Search context_TODO svc3 "jump" = (Some [1; 3], None) /\
  Search context_TODO svc3 EmptyString = (None, Some (ErrNotEnoughContent EmptyString)).
Proof. repeat split; evaluate. Qed.

(** [TestService_Upsert]. *)
Example TestService_Upsert :
  Upsert NewService [docThree] = (svcA, None) /\
  Search context_TODO svcA "pickled" = (Some [3], None) /\
  Upsert svcA [docThree'] = (svcB, None) /\
  Search context_TODO svcB "pickled" = (Some [], None) /\
  Search context_TODO svcB "spicy" = (Some [3], None).
Proof. repeat split; evaluate. Qed.

(** With three documents every trigram is pruned: the candidates are all
    the documents, and the suffix arrays alone decide. *)
Example three_documents_all_pruned :
  forallb (fun tv : Z * option (list Z) =>
             match snd tv with
             | None => true
             | Some _ => Z.eqb (fst tv) trigram.TAllDocIDs
             end) (map_to_list (idx svc3)) = true /\
  trigram.QueryTrigrams (idx svc3) (tgrams "jump") = Some [0; 1; 2].
Proof. split; evaluate. Qed.

Lemma reachable_svc3 : reachable [docOne; docTwo; docThree] svc3.
Proof. apply (reachable_Upsert [] NewService _ svc3 reachable_New). evaluate. Qed.

Lemma reachable_svc10 : reachable ten svc10.
Proof. apply (reachable_Upsert [] NewService _ svc10 reachable_New). evaluate. Qed.

Lemma reachable_svc11 : reachable (ten ++ [wrong_prior]) svc11.
Proof. apply (reachable_Upsert _ _ _ svc11 reachable_svc10). evaluate. Qed.

Lemma reachable_svc_repeated : reachable repeated svc_repeated.
Proof. apply (reachable_Upsert [] NewService _ svc_repeated reachable_New). evaluate. Qed.

Lemma reachable_svc_blank : reachable [blank] svc_blank.
Proof. apply (reachable_Upsert [] NewService _ svc_blank reachable_New). evaluate. Qed.

(** C4.  The three documents of the tests in a fresh service, and the six
    searches of the scenario, each without error. *)
Theorem concrete_scenario :
  Upsert NewService [docOne; docTwo; docThree] = (svc3, None) /\
  Search context_TODO svc3 "brow" = (Some [1], None) /\
  Search context_TODO svc3 "row" = (Some [], None) /\
  Search context_TODO svc3 "jump" = (Some [1; 3], None) /\
  Search context_TODO svc3 "fox sea" = (Some [], None) /\
  Search context_TODO svc3 "She shore" = (Some [2], None) /\
  Search context_TODO svc3 "pET PiP" = (Some [3], None).
Proof. repeat split; evaluate. Qed.


(** The same happens without a wrong [PriorText] when a batch names a new
    external ID twice: the second document is processed as an update with
    the empty [PriorText] that validation let through. *)
Example repeated_ID_leaves_postings :
  Upsert NewService repeated = (svc_repeated, None) /\
  extIDs svc_repeated !! 1 = Some 1 /\
  docs svc_repeated !! 0 = None /\
  posted (idx svc_repeated) (trigram.pack "_" "x" "x") 0 /\
  Search context_TODO svc_repeated "xxx" = (Some [], None).
Proof.
  repeat split; try evaluate. exists [0]. split; [evaluate | left].
Qed.

(** C2 as stated fails: "a" is a token of document 3 and a prefix of
    itself, and [Search] refuses it. *)
Lemma Search_prefix_counterexample :
  reachable [docOne; docTwo; docThree] svc3 /\
  texts [docOne; docTwo; docThree] !! 3 = Some (Text docThree) /\
  "a" ∈ tokens (Text docThree) /\ has_prefix "a" "a" = true /\
  Search context_TODO svc3 "a" = (None, Some (ErrNotEnoughContent "a")).
Proof.
  split; [exact reachable_svc3 |]. repeat split; try evaluate.
  vm_compute. repeat constructor.
Qed.


(** C9 as stated fails: a document indexed with the empty text cannot be
    upserted again, since its correct [PriorText] is empty. *)
Lemma Upsert_empty_text_counterexample :
  reachable [blank] svc_blank /\
  ID blank <> 0 /\ Text blank = EmptyString /\
  texts [blank] !! ID blank = Some (PriorText blank) /\
  Upsert svc_blank [blank] = (svc_blank, Some (ErrNoPriorText 0)).
Proof.
  split; [exact reachable_svc_blank |]. repeat split; try evaluate. discriminate.
Qed.

(** ** The theorems at the package's test documents *)

Lemma capacity_3 : Z.of_nat (length [docOne; docTwo; docThree]) <= 2 ^ 32.
Proof. cbn. lia. Defined.

Lemma Upsert_rejects_invalid_batch_witness :
  existsb (invalid svc3) [mkDoc 4 "new" EmptyString; mkDoc 0 "zero" EmptyString; mkDoc 1 "again" EmptyString] = true /\
  exists i doc,
    [mkDoc 4 "new" EmptyString; mkDoc 0 "zero" EmptyString; mkDoc 1 "again" EmptyString] !! i = Some doc /\
    invalid svc3 doc = true /\
    existsb (invalid svc3)
      (take i [mkDoc 4 "new" EmptyString; mkDoc 0 "zero" EmptyString; mkDoc 1 "again" EmptyString]) = false /\
    Upsert svc3 [mkDoc 4 "new" EmptyString; mkDoc 0 "zero" EmptyString; mkDoc 1 "again" EmptyString]
      = (svc3, Some (validation_error i doc)).
Proof.
  split; [evaluate |]. apply Upsert_rejects_invalid_batch. evaluate.
Defined.

Lemma Search_not_enough_content_witness :
  tgrams EmptyString = [] /\ tokens " " = [] /\ tgrams "fox" <> [] /\
  Search context_TODO svc3 EmptyString = (None, Some (ErrNotEnoughContent EmptyString)) /\
  Search context_TODO svc3 " " = (None, Some (ErrNotEnoughContent " ")) /\
  outcome_of (snd (Search context_TODO svc3 "fox")) <> NotEnoughContent.
Proof.
  assert (H1 : tgrams EmptyString = []) by evaluate.
  assert (H2 : tokens " " = []) by evaluate.
  assert (H3 : tgrams "fox" <> []) by (vm_compute; discriminate).
  split; [exact H1 |]. split; [exact H2 |]. split; [exact H3 |].
  split; [exact (proj1 (Search_not_enough_content context_TODO svc3 EmptyString) H1) |].
  split; [exact (proj1 (proj2 (Search_not_enough_content context_TODO svc3 " ")) H2) |].
  exact (proj2 (proj2 (Search_not_enough_content context_TODO svc3 "fox")) H3).
Defined.

Lemma Search_cancelled_witness :
  tgrams "jump" <> [] /\
  (1 < length (elems (trigram.QueryTrigrams (idx svc3) (tgrams "jump"))))%nat /\
  ctx_Done ctx_cancelled_at_1 1 = true /\
  (forall i, (i < 1)%nat -> ctx_Done ctx_cancelled_at_1 i = false) /\
  Search ctx_cancelled_at_1 svc3 "jump" = (None, Some (ErrContext Canceled)).
Proof.
  assert (H1 : tgrams "jump" <> []) by (vm_compute; discriminate).
  assert (H2 : (1 < length (elems (trigram.QueryTrigrams (idx svc3) (tgrams "jump"))))%nat).
  { replace (length _) with 3%nat by evaluate. lia. }
  assert (H3 : ctx_Done ctx_cancelled_at_1 1 = true) by reflexivity.
  assert (H4 : forall i, (i < 1)%nat -> ctx_Done ctx_cancelled_at_1 i = false).
  { intros [|i] Hi; [reflexivity | lia]. }
  split; [exact H1 |]. split; [exact H2 |]. split; [exact H3 |]. split; [exact H4 |].
  exact (Search_cancelled ctx_cancelled_at_1 svc3 "jump" 1 H1 H2 H3 H4).
Defined.

Lemma Search_case_insensitive_witness :
  folds_case (replacer_Replace "pET PiP") /\ folds_case (replacer_Replace "Pet pip") /\
  lower "pET PiP" = lower "Pet pip" /\
  fst (Search context_TODO svc3 "pET PiP") = fst (Search context_TODO svc3 "Pet pip") /\
  outcome_of (snd (Search context_TODO svc3 "pET PiP"))
  = outcome_of (snd (Search context_TODO svc3 "Pet pip")).
Proof.
  assert (H1 : folds_case (replacer_Replace "pET PiP")) by (unfold folds_case; evaluate).
  assert (H2 : folds_case (replacer_Replace "Pet pip")) by (unfold folds_case; evaluate).
  assert (H3 : lower "pET PiP" = lower "Pet pip") by evaluate.
  split; [exact H1 |]. split; [exact H2 |]. split; [exact H3 |].
  exact (Search_case_insensitive context_TODO svc3 "pET PiP" "Pet pip" H1 H2 H3).
Defined.

Lemma docs_extIDs_bijection_witness :
  reachable [docOne; docTwo; docThree] svc3 /\
  Z.of_nat (length [docOne; docTwo; docThree]) <= 2 ^ 32 /\
  size (docs svc3) = size (extIDs svc3) /\
  (forall e d, extIDs svc3 !! e = Some d ->
     exists m, docs svc3 !! d = Some m /\ meta.id m = e) /\
  (forall d m, docs svc3 !! d = Some m ->
     forall e, extIDs svc3 !! e = Some d <-> e = meta.id m) /\
  DocCount svc3 = size (list_to_set (ID <$> [docOne; docTwo; docThree]) : gset Z) /\
  (forall ctx query l, fst (Search ctx svc3 query) = Some l -> NoDup l).
Proof.
  split; [exact reachable_svc3 |]. split; [exact capacity_3 |].
  exact (docs_extIDs_bijection _ _ reachable_svc3 capacity_3).
Defined.


Lemma Search_prefix_witness :
  reachable [docOne; docTwo; docThree] svc3 /\
  Z.of_nat (length [docOne; docTwo; docThree]) <= 2 ^ 32 /\
  texts [docOne; docTwo; docThree] !! 1 = Some (Text docOne) /\
  "brown" ∈ tokens (Text docOne) /\ has_prefix "brow" "brown" = true /\
  (2 <= String.length "brow")%nat /\ tokens "brow" = ["brow"] /\
  (exists l, Search context_TODO svc3 "brow" = (Some l, None) /\ 1 ∈ l) /\
  Forall no_marker (tokens (Text docOne)) /\ tokens "row" = ["row"] /\
  no_delim "row" /\
  (forall w, w ∈ tokens (Text docOne) -> has_prefix "row" w = false) /\
  (forall l, fst (Search context_TODO svc3 "row") = Some l -> 1 ∉ l).
Proof.
  assert (Ht : texts [docOne; docTwo; docThree] !! 1 = Some (Text docOne)) by evaluate.
  assert (Hw : "brown" ∈ tokens (Text docOne)) by (vm_compute; repeat constructor).
  assert (Hp : has_prefix "brow" "brown" = true) by reflexivity.
  assert (Hl : (2 <= String.length "brow")%nat) by (cbn; lia).
  assert (Hb : tokens "brow" = ["brow"]) by evaluate.
  assert (Hm : Forall no_marker (tokens (Text docOne))) by (vm_compute; repeat constructor).
  assert (Hr : tokens "row" = ["row"]) by evaluate.
  assert (Hd : no_delim "row") by reflexivity.
  assert (Hn : forall w, w ∈ tokens (Text docOne) -> has_prefix "row" w = false).
  { apply Forall_forall. vm_compute. repeat constructor. }
  destruct (Search_prefix _ _ 1 (Text docOne) reachable_svc3 capacity_3 Ht) as [HA HB].
  split; [exact reachable_svc3 |]. split; [exact capacity_3 |].
  repeat (split; [assumption |]).
  split; [exact (HA "brown" "brow" Hw Hp Hl Hb) |].
  repeat (split; [assumption |]).
  exact (fun l => HB context_TODO "row" l Hm Hr Hd Hn).
Defined.


Lemma Upsert_empty_text_witness :
  reachable [docOne; docTwo; docThree] svc3 /\
  Z.of_nat (length [docOne; docTwo; docThree]) < 2 ^ 32 /\
  stringy_Analyze EmptyString = [] /\
  ID (mkDoc 2 EmptyString (Text docTwo)) <> 0 /\ Text (mkDoc 2 EmptyString (Text docTwo)) = EmptyString /\
  (is_Some (extIDs svc3 !! ID (mkDoc 2 EmptyString (Text docTwo))) ->
     PriorText (mkDoc 2 EmptyString (Text docTwo)) <> EmptyString) /\
  exists svc',
    Upsert svc3 [mkDoc 2 EmptyString (Text docTwo)] = (svc', None) /\
    forall ctx query l, fst (Search ctx svc' query) = Some l -> 2 ∉ l.
Proof.
  assert (Hc : Z.of_nat (length [docOne; docTwo; docThree]) < 2 ^ 32) by (cbn; lia).
  assert (Hn : stringy_Analyze EmptyString = []) by reflexivity.
  assert (Hi : ID (mkDoc 2 EmptyString (Text docTwo)) <> 0) by discriminate.
  assert (Ht : Text (mkDoc 2 EmptyString (Text docTwo)) = EmptyString) by reflexivity.
  assert (Hp : is_Some (extIDs svc3 !! ID (mkDoc 2 EmptyString (Text docTwo))) ->
               PriorText (mkDoc 2 EmptyString (Text docTwo)) <> EmptyString) by (intros _; discriminate).
  split; [exact reachable_svc3 |]. repeat (split; [assumption |]).
  exact (Upsert_empty_text _ _ _ reachable_svc3 Hc Hn Hi Ht Hp).
Defined.

End Scenarios.

(** * Further properties of the package *)

Section Further.
Context {A : Analyzer}.

(** ** [NewService] and unknown trigrams *)

Lemma freqs_None (idx : gmap Z (option (list Z))) (ts : list Z) (t : Z) :
  t ∈ ts -> idx !! t = None -> trigram.freqs idx ts = None.
Proof.
  intros Ht Hnone. induction ts as [|t' ts IH]; [inversion Ht |].
  cbn [trigram.freqs]. destruct (idx !! t') as [d|] eqn:E; [| reflexivity].
  apply elem_of_cons in Ht as [-> | Ht]; [congruence |].
  now rewrite (IH Ht).
Qed.

Lemma QueryTrigrams_unknown (idx : gmap Z (option (list Z))) (ts : list Z) (t : Z) :
  t ∈ ts -> idx !! t = None -> trigram.QueryTrigrams idx ts = None.
Proof.
  intros Ht Hnone. unfold trigram.QueryTrigrams.
  destruct ts as [|t' ts]; [inversion Ht |]. cbn [length Nat.eqb].
  now rewrite (freqs_None _ _ t Ht Hnone).
Qed.

(** A query with a trigram that is no key of the index has no candidate:
    the result is the empty list, not nil, and the context is not polled. *)
Theorem Search_unknown_trigram (ctx : Context) (svc : Service) (query : string) (t : Z) :
  t ∈ tgrams query -> idx svc !! t = None ->
  Search ctx svc query = (Some [], None).
Proof.
  intros Ht Hnone. rewrite Search_unfold.
  rewrite (QueryTrigrams_unknown _ _ t Ht Hnone).
  destruct (tgrams query); [inversion Ht | reflexivity].
Qed.

(** A fresh service counts no document, and every query with a trigram gets
    the empty list from it, whatever the context. *)
Theorem NewService_fresh :
  DocCount NewService = 0%nat /\
  forall ctx query, tgrams query <> [] ->
    Search ctx NewService query = (Some [], None).
Proof.
  split; [apply map_size_empty |]. intros ctx query Hq.
  destruct (tgrams query) as [|t ts] eqn:E; [congruence |].
  assert (Ht : t ∈ tgrams query) by (rewrite E; left).
  rewrite Search_unfold, E, (QueryTrigrams_unknown _ _ t); try reflexivity.
  - now rewrite <- E.
  - cbn [idx NewService]. unfold trigram.NewIndex_nil.
    apply lookup_singleton_ne. intros Heq. rewrite <- Heq in Ht.
    exact (tgrams_not_all _ Ht).
Qed.

(** ** [analyze] *)

Lemma NoDup_appendIfUnique (t : list Z) (n : Z) :
  NoDup t -> NoDup (trigram.appendIfUnique t n).
Proof.
  intros Ht. unfold trigram.appendIfUnique.
  destruct (existsb (Z.eqb n) t) eqn:E; [exact Ht |].
  apply NoDup_app. split; [exact Ht |]. split; [| apply NoDup_singleton].
  intros x Hx Hn. apply list_elem_of_singleton in Hn as ->.
  assert (existsb (Z.eqb n) t = true); [| congruence].
  apply existsb_exists. exists n. split; [now apply list_elem_of_In | apply Z.eqb_refl].
Qed.

Lemma NoDup_Extract (s : string) (ts : list Z) :
  NoDup ts -> NoDup (trigram.Extract s ts).
Proof.
  unfold trigram.Extract. revert ts.
  induction (trigram.windows s) as [|w ws IH]; intros ts Hts; [exact Hts |].
  cbn [fold_left]. now apply IH, NoDup_appendIfUnique.
Qed.

(** [analyze] marks every token of the analyzer, in order, and lists each
    trigram of a marked token once; none of them is the all-documents key. *)
Theorem analyze_spec (text : string) :
  snd (analyze text) = map (String "_"%char) (tokens text) /\
  NoDup (fst (analyze text)) /\
  (forall t, t ∈ fst (analyze text) <->
     exists tok, tok ∈ tokens text /\ t ∈ trigram.windows (String "_"%char tok)) /\
  trigram.TAllDocIDs ∉ fst (analyze text).
Proof.
  split; [apply analyze_words |]. split; [| split].
  - unfold analyze. destruct (stringy_Analyze (replacer_Replace text)) as [|w ws];
      [apply NoDup_nil_2 |].
    cbn [length Nat.eqb fst]. generalize (map (String "_"%char) (w :: ws)).
    intros words. assert (H : NoDup (@nil Z)) by apply NoDup_nil_2.
    revert H. generalize (@nil Z). induction words as [|x words IH]; intros ts Hts;
      [exact Hts |].
    cbn [fold_left]. now apply IH, NoDup_Extract.
  - intros t. apply elem_of_tgrams.
  - apply tgrams_not_all.
Qed.

(** ** Separators *)

Lemma replacer_byte_idem (c : ascii) :
  replacer_byte (replacer_byte c) = replacer_byte c.
Proof. destruct c as [[] [] [] [] [] [] [] []]; reflexivity. Qed.

Lemma replacer_idem (s : string) :
  replacer_Replace (replacer_Replace s) = replacer_Replace s.
Proof.
  induction s as [|c s IH]; [reflexivity |].
  cbn. f_equal; [apply replacer_byte_idem | exact IH].
Qed.

Lemma replacer_length (s : string) :
  String.length (replacer_Replace s) = String.length s.
Proof. induction s as [|c s IH]; [reflexivity |]. cbn. now rewrite IH. Qed.

Lemma analyze_replaced (text : string) :
  analyze (replacer_Replace text) = analyze text.
Proof. unfold analyze. now rewrite replacer_idem. Qed.

Lemma upsert1_spaced (svc : Service) (doc : Doc) :
  upsert1 svc (spaced doc) = upsert1 svc doc.
Proof. unfold upsert1, spaced. cbn [ID Text PriorText]. now rewrite !analyze_replaced. Qed.

Lemma validate_spaced (svc : Service) (k : nat) (ds : list Doc) :
  validate svc k (map spaced ds) = validate svc k ds.
Proof.
  revert k. induction ds as [|doc ds IH]; intros k; [reflexivity |].
  cbn [map validate spaced ID PriorText]. now rewrite replacer_length, IH.
Qed.

(** Hyphen, underscore, colon and pipe count as spaces: replacing them by
    spaces in a query changes neither the documents found nor the kind of
    error, and replacing them in the texts of a batch changes nothing of
    what [Upsert] does. *)
Theorem separators_are_spaces (ctx : Context) (svc : Service) (query : string)
    (ds : list Doc) :
  fst (Search ctx svc (replacer_Replace query)) = fst (Search ctx svc query) /\
  outcome_of (snd (Search ctx svc (replacer_Replace query)))
  = outcome_of (snd (Search ctx svc query)) /\
  Upsert svc (map spaced ds) = Upsert svc ds.
Proof.
  rewrite !Search_unfold. unfold tgrams. rewrite analyze_replaced.
  split; [| split].
  - now destruct (analyze query).1.
  - now destruct (analyze query).1.
  - unfold Upsert. rewrite validate_spaced.
    destruct (validate svc 0 ds); [reflexivity |]. do 2 f_equal.
    generalize svc. induction ds as [|doc ds IH]; intros svc0; [reflexivity |].
    cbn [map fold_left]. now rewrite upsert1_spaced, IH.
Qed.

(** ** When [Upsert] fails *)

(** [Upsert] returns an error exactly when the batch holds an invalid
    document; otherwise it applies every document and ends with [Prune] and
    [Sort]. *)
Theorem Upsert_succeeds_iff (svc : Service) (ds : list Doc) :
  (snd (Upsert svc ds) = None <-> existsb (invalid svc) ds = false) /\
  (existsb (invalid svc) ds = false ->
     Upsert svc ds = (finish (fold_left upsert1 ds svc), None)).
Proof.
  unfold Upsert. pose proof (validate_spec svc 0 ds) as Hv.
  destruct (validate svc 0 ds) as [err|].
  - destruct Hv as (i & doc & Hi & Hinv & _).
    assert (Hex : existsb (invalid svc) ds = true).
    { apply existsb_exists. exists doc. split; [| exact Hinv].
      apply list_elem_of_In. eapply list_elem_of_lookup_2; eauto. }
    split; [split |]; cbn; congruence.
  - split; [split |]; cbn; congruence.
Qed.

End Further.

(** ** The posting index as a filter *)

Lemma windows_tail (c : ascii) (s : string) (t : Z) :
  t ∈ trigram.windows s -> t ∈ trigram.windows (String c s).
Proof.
  cbn [trigram.windows]. destruct s as [|b [|c' s]]; try (now inversion 1).
  intros H. now right.
Qed.

(** The trigrams of a substring are trigrams of the string. *)
Lemma windows_substring (p w : string) (t : Z) :
  occursb p w = true -> t ∈ trigram.windows p -> t ∈ trigram.windows w.
Proof.
  induction w as [|c w IH]; intros Hocc Ht.
  - cbn in Hocc. rewrite orb_false_r in Hocc. eapply windows_prefix; eauto.
  - rewrite occursb_cons in Hocc. apply orb_true_iff in Hocc as [Hp | Hocc].
    + eapply windows_prefix; eauto.
    + apply windows_tail. now apply IH.
Qed.

Lemma occursb_delim_head (p r : string) :
  no_delim p -> p <> EmptyString ->
  occursb p (String zero r) = occursb p r.
Proof.
  unfold no_delim. intros Hd Hne. rewrite occursb_cons.
  destruct p as [|a p]; [congruence |]. cbn [char_in has_prefix] in *.
  apply orb_false_iff in Hd as [Ha _]. rewrite Ascii.eqb_sym in Ha.
  now rewrite Ha.
Qed.

Lemma occursb_app_delim (p w r : string) :
  no_delim p ->
  occursb p (w ++ String zero r) = true ->
  occursb p w = true \/ occursb p (String zero r) = true.
Proof.
  intros Hd. induction w as [|c w IH]; [now right |].
  rewrite str_app_cons, !occursb_cons. intros H.
  apply orb_true_iff in H as [H | H].
  - left. rewrite <- str_app_cons in H.
    now rewrite (has_prefix_before_delim _ _ _ Hd H).
  - destruct (IH H) as [Hw | Hr]; [left | now right].
    rewrite Hw. apply orb_true_r.
Qed.

(** What is found in the verifier's text, and holds no delimiter, is found
    in one of its words. *)
Lemma occursb_sa_join (p : string) (words : list string) :
  no_delim p -> p <> EmptyString ->
  occursb p (sa_join words) = true ->
  exists w, w ∈ words /\ occursb p w = true.
Proof.
  intros Hd Hne. induction words as [|w ws IH].
  - cbn [sa_join]. unfold saDelim. rewrite occursb_delim_head by assumption.
    destruct p; [congruence | discriminate].
  - rewrite sa_join_cons, occursb_delim_head by assumption.
    destruct (sa_join_delim ws) as [r Hr]. rewrite Hr. intros H.
    apply occursb_app_delim in H as [H | H]; [| | assumption].
    + exists w. split; [left | exact H].
    + rewrite <- Hr in H. destruct (IH H) as (w' & Hw' & Hocc).
      exists w'. split; [now right | exact Hocc].
Qed.

Section Filter.
Context {A : Analyzer}.

(** A document that verifies has all the trigrams of the query. *)
Lemma verify_tgrams (text query : string) (e : Z) :
  verify {| meta.sa := verifier text; meta.id := e |} (snd (analyze query)) = true ->
  Forall no_delim (tokens query) ->
  forall t, t ∈ tgrams query -> t ∈ tgrams text.
Proof.
  intros Hv Hd t Ht. apply elem_of_tgrams in Ht as (tok & Htok & Ht).
  rewrite verify_word in Hv. destruct (Hv (String "_"%char tok)) as [_ Hocc].
  { rewrite analyze_words. apply list_elem_of_fmap. eauto. }
  rewrite Forall_forall in Hd. specialize (Hd tok Htok).
  apply occursb_sa_join in Hocc as (w' & Hw' & Hocc); [| exact Hd | discriminate].
  apply list_elem_of_fmap in Hw' as (w & -> & Hw).
  apply elem_of_tgrams. exists w. split; [exact Hw |].
  eapply windows_substring; eauto.
Qed.

Lemma sorted_range_sublist (l : list Z) (m : Z) (k : nat) :
  StronglySorted Z.lt l -> Forall (fun d => m <= d < m + Z.of_nat k) l ->
  l `sublist_of` seqZ m (Z.of_nat k).
Proof.
  revert l m. induction k as [|k IH]; intros l m Hs Hr.
  - destruct l as [|x l]; [constructor |]. inversion_clear Hr. lia.
  - rewrite Nat2Z.inj_succ, seqZ_cons by lia.
    replace (Z.pred (Z.succ (Z.of_nat k))) with (Z.of_nat k) by lia.
    destruct l as [|x l]; [apply sublist_nil_l |].
    inversion_clear Hs as [| ? ? Hs' Hx]. inversion_clear Hr as [| ? ? Hxr Hr'].
    rewrite Forall_forall in Hx, Hr'.
    destruct (decide (x = m)) as [-> | Hne].
    + apply sublist_skip, IH; [exact Hs' |]. apply Forall_forall. intros d Hd.
      specialize (Hx d Hd). specialize (Hr' d Hd). lia.
    + apply sublist_cons, IH; [now constructor; [| apply Forall_forall] |].
      constructor; [lia |]. apply Forall_forall. intros d Hd.
      specialize (Hx d Hd). specialize (Hr' d Hd). lia.
Qed.

Lemma get_elems_sublist (idx : gmap Z (option (list Z))) (t : Z) :
  index_ok idx -> elems (trigram.get idx t) `sublist_of` all_ids idx.
Proof.
  intros Hok. destruct (decide (t = trigram.TAllDocIDs)) as [-> | Ht]; [reflexivity |].
  unfold trigram.get. destruct (idx !! t) as [[l|]|] eqn:E; cbn [elems];
    try apply sublist_nil_l.
  rewrite (ok_all _ Hok). apply sorted_range_sublist; [now apply (ok_sorted _ Hok t) |].
  apply Forall_forall. intros d Hd.
  assert (Hp : posted idx t d) by (exists l; eauto).
  pose proof (ok_range _ Hok t d Ht Hp). lia.
Qed.

(** The candidates are internal IDs handed out, in ascending order. *)
Lemma QueryTrigrams_sublist (idx : gmap Z (option (list Z))) (ts : list Z) :
  index_ok idx -> elems (trigram.QueryTrigrams idx ts) `sublist_of` all_ids idx.
Proof.
  intros Hok. unfold trigram.QueryTrigrams.
  destruct (length ts =? 0)%nat; [reflexivity |].
  destruct (trigram.freqs idx ts) as [tf|]; [| apply sublist_nil_l].
  destruct (trigram.skip_zero (trigram.tf_sort tf)) as [|[t n] rest]; [reflexivity |].
  etransitivity; [apply Filter_loop_sublist | now apply get_elems_sublist].
Qed.

Lemma all_ids_sorted (idx : gmap Z (option (list Z))) :
  index_ok idx -> StronglySorted Z.lt (all_ids idx).
Proof. intros Hok. rewrite (ok_all _ Hok). apply StronglySorted_seqZ. Qed.

Lemma omap_sublist_eq {X Y : Type} (f : X -> option Y) (c a : list X) :
  c `sublist_of` a -> NoDup a ->
  (forall x, x ∈ a -> is_Some (f x) -> x ∈ c) ->
  omap f c = omap f a.
Proof.
  induction 1 as [| x c a Hs IH | x c a Hs IH]; intros Ha Hin; [reflexivity | |];
    inversion_clear Ha as [| ? ? Hx Ha'].
  - change (omap f (x :: c)) with (from_option (fun y => y :: omap f c) (omap f c) (f x)).
    change (omap f (x :: a)) with (from_option (fun y => y :: omap f a) (omap f a) (f x)).
    rewrite IH; [reflexivity | exact Ha' |].
    intros y Hy Hf. assert (Hyc : y ∈ x :: c) by (apply Hin; [now right | exact Hf]).
    apply elem_of_cons in Hyc as [-> | Hyc]; [contradiction | exact Hyc].
  - change (omap f (x :: a)) with (from_option (fun y => y :: omap f a) (omap f a) (f x)).
    destruct (f x) as [y|] eqn:E.
    + exfalso. apply Hx. eapply elem_of_sublist; [| exact Hs].
      apply Hin; [left | rewrite E; eauto].
    + cbn. apply IH; [exact Ha' |]. intros y Hy Hf. apply Hin; [now right | exact Hf].
Qed.

(** On a consistent service [Search] returns what the scan of all internal
    IDs returns: the posting index drops no document that verifies. *)
Lemma hits_scan (svc : Service) (txt : gmap Z string) (query : string) :
  Inv svc txt -> Forall no_delim (tokens query) ->
  omap (hit svc (snd (analyze query)))
    (elems (trigram.QueryTrigrams (idx svc) (tgrams query)))
  = scan svc query.
Proof.
  intros Hinv Hd. unfold scan. pose proof (inv_idx _ _ Hinv) as Hok.
  apply omap_sublist_eq.
  - now apply QueryTrigrams_sublist.
  - now apply StronglySorted_NoDup, all_ids_sorted.
  - intros d Hdall [e He]. apply hit_Some in He as (m & Hm & Hv & He).
    pose proof (inv_docs _ _ Hinv _ _ Hm) as Hext. rewrite He in Hext.
    destruct (inv_ext _ _ Hinv _ _ Hext) as (text & Htext & Hm').
    assert (m = {| meta.sa := verifier text; meta.id := e |}) as -> by congruence.
    apply QueryTrigrams_complete; [exact Hok | exact Hdall |].
    intros t Ht. apply (inv_complete _ _ Hinv e d text t Hext Htext).
    eapply verify_tgrams; eauto.
Qed.

End Filter.

Section FurtherSearch.
Context {A : Analyzer}.

(** [Search] is the scan: while internal IDs last, a result of [Search] is
    the list the verification of every internal ID gives, in order, for a
    query whose tokens hold no delimiter byte; the posting index only spares
    verifications. *)
Theorem Search_is_scan (hist : list Doc) (svc : Service) (query : string) :
  reachable hist svc -> Z.of_nat (length hist) <= 2 ^ 32 ->
  Forall no_delim (tokens query) ->
  (forall ctx l, fst (Search ctx svc query) = Some l -> l = scan svc query) /\
  (tgrams query <> [] ->
     Search context_TODO svc query = (Some (scan svc query), None)).
Proof.
  intros Hreach Hcap Hd. pose proof (reachable_Inv _ _ Hreach Hcap) as Hinv.
  split.
  - intros ctx l Hl. rewrite (Search_result_hits _ _ _ _ Hl).
    now apply (hits_scan svc (texts hist)).
  - intros Hq. rewrite (Search_TODO_hits _ _ Hq).
    now rewrite (hits_scan svc (texts hist)).
Qed.

Lemma matches_tgrams (query text : string) (t : Z) :
  matches query text -> t ∈ tgrams query -> t ∈ tgrams text.
Proof.
  intros Hm Ht. apply elem_of_tgrams in Ht as (tok & Htok & Ht).
  destruct (Hm tok Htok) as (w & Hw & Hp).
  apply elem_of_tgrams. exists w. split; [exact Hw |].
  apply (windows_prefix (String "_"%char tok)); [| exact Ht].
  cbn [has_prefix]. now rewrite Ascii.eqb_refl.
Qed.

(** What [Search] finds: while internal IDs last, a query with a trigram
    returns, each once, the external IDs whose last indexed text has, for
    every token of the query, a token that starts with it (indexed tokens
    without marker byte, query tokens without delimiter byte). *)
Theorem Search_finds_matches (hist : list Doc) (svc : Service) (query : string) :
  reachable hist svc -> Z.of_nat (length hist) <= 2 ^ 32 ->
  tgrams query <> [] ->
  Forall no_delim (tokens query) ->
  (forall e text, texts hist !! e = Some text -> Forall no_marker (tokens text)) ->
  exists l,
    Search context_TODO svc query = (Some l, None) /\ NoDup l /\
    forall e, e ∈ l <-> exists text, texts hist !! e = Some text /\ matches query text.
Proof.
  intros Hreach Hcap Hq Hd Hclean.
  pose proof (reachable_Inv _ _ Hreach Hcap) as Hinv.
  rewrite (Search_TODO_hits _ _ Hq). eexists. split; [reflexivity |].
  split; [now apply (hits_NoDup svc (texts hist)) |]. intros e. split.
  - intros He. apply (hits_inv svc (texts hist) Hinv) in He as (text & Htext & Hv).
    exists text. split; [exact Htext |]. intros tok Htok.
    apply (verify_prefixes_inv text query e tok Hv); [eauto | exact Htok |].
    rewrite Forall_forall in Hd. now apply Hd.
  - intros (text & Htext & Hm).
    apply (hits_complete svc (texts hist) Hinv query text e Htext).
    + intros t. now apply matches_tgrams.
    + now apply verify_prefixes.
Qed.

(** ** Internal IDs *)

Lemma next_id_forget (svc : Service) (doc : Doc) (docID : Z) :
  trigram.next_id (idx (forget svc doc docID)) = trigram.next_id (idx svc).
Proof.
  unfold trigram.next_id, len.
  fold (all_ids (idx (forget svc doc docID))). fold (all_ids (idx svc)).
  now rewrite forget_all_ids.
Qed.

Lemma upsert1_extIDs (svc : Service) (doc : Doc) :
  extIDs (upsert1 svc doc) = <[ID doc := trigram.next_id (idx svc)]> (extIDs svc).
Proof.
  destruct (extIDs svc !! ID doc) as [docID|] eqn:He.
  - rewrite (upsert1_update _ _ _ He), upsert1_new by (cbn; apply lookup_delete_eq).
    cbn [extIDs]. rewrite next_id_forget. unfold forget. cbn [extIDs].
    apply insert_delete_eq.
  - now rewrite upsert1_new.
Qed.

Lemma batch_extIDs (svc : Service) (ds : list Doc) :
  Z.of_nat (length (all_ids (idx svc)) + length ds) <= 2 ^ 32 ->
  extIDs (fold_left upsert1 ds svc)
  = ids_from (length (all_ids (idx svc))) (extIDs svc) ds.
Proof.
  revert svc. induction ds as [|doc ds IH]; intros svc Hcap; [reflexivity |].
  cbn [fold_left ids_from length] in *. rewrite IH.
  - rewrite upsert1_all_ids, length_app, upsert1_extIDs, next_id_fresh by lia.
    cbn [length]. now rewrite Nat.add_1_r.
  - rewrite upsert1_all_ids, length_app. cbn [length]. lia.
Qed.

Lemma ids_from_app (n : nat) (m : gmap Z Z) (a b : list Doc) :
  ids_from n m (a ++ b) = ids_from (n + length a) (ids_from n m a) b.
Proof.
  revert n m. induction a as [|doc a IH]; intros n m; cbn [app ids_from length].
  - now rewrite Nat.add_0_r.
  - rewrite IH. now rewrite Nat.add_succ_comm.
Qed.

Lemma reachable_extIDs (hist : list Doc) (svc : Service) :
  reachable hist svc -> Z.of_nat (length hist) <= 2 ^ 32 ->
  extIDs svc = ids hist.
Proof.
  induction 1 as [| hist svc ds svc' Hreach IH Hup]; intros Hcap; [reflexivity |].
  rewrite length_app in Hcap.
  destruct (reachable_all_ids _ _ Hreach) as [Hlen _]; [lia |].
  apply Upsert_ok_inv in Hup as [_ ->]. unfold finish. cbn [extIDs].
  rewrite batch_extIDs by (rewrite Hlen; lia).
  unfold ids. rewrite ids_from_app, Hlen, IH by lia. reflexivity.
Qed.

Lemma ids_snoc (hist : list Doc) (doc : Doc) :
  ids (hist ++ [doc]) = <[ID doc := Z.of_nat (length hist)]> (ids hist).
Proof. unfold ids. now rewrite ids_from_app. Qed.

(** The internal ID under an external ID is the position, in the history,
    of the last document with that external ID. *)
Lemma ids_last (hist : list Doc) (e d : Z) :
  ids hist !! e = Some d <->
  exists i doc, d = Z.of_nat i /\ hist !! i = Some doc /\ ID doc = e /\
    forall j doc', (i < j)%nat -> hist !! j = Some doc' -> ID doc' <> e.
Proof.
  induction hist as [|x hist IH] using rev_ind.
  - unfold ids. cbn. rewrite lookup_empty. split; [discriminate |].
    intros (i & doc & _ & Hi & _). now rewrite lookup_nil in Hi.
  - rewrite ids_snoc. destruct (decide (ID x = e)) as [Hx | Hx].
    + subst e. rewrite lookup_insert_eq. split.
      * intros [= <-]. exists (length hist), x. repeat split.
        -- now rewrite list_lookup_middle.
        -- intros j doc' Hj Hdoc'. apply lookup_lt_Some in Hdoc'.
           rewrite length_app in Hdoc'. cbn in Hdoc'. lia.
      * intros (i & doc & -> & Hi & He & Hlast).
        destruct (decide (i = length hist)) as [-> | Hne]; [reflexivity |].
        exfalso. pose proof (lookup_lt_Some _ _ _ Hi) as Hlt.
        rewrite length_app in Hlt. cbn in Hlt.
        apply (Hlast (length hist) x); [lia | now rewrite list_lookup_middle | reflexivity].
    + rewrite lookup_insert_ne by assumption. rewrite IH. split.
      * intros (i & doc & -> & Hi & He & Hlast). exists i, doc.
        pose proof (lookup_lt_Some _ _ _ Hi) as Hlt.
        repeat split; [now rewrite lookup_app_l | exact He |].
        intros j doc' Hj Hdoc'. destruct (decide (j < length hist)%nat) as [Hjl | Hjl].
        -- rewrite lookup_app_l in Hdoc' by assumption. eauto.
        -- pose proof (lookup_lt_Some _ _ _ Hdoc') as Hjlt.
           rewrite length_app in Hjlt. cbn in Hjlt.
           assert (j = length hist) as -> by lia.
           rewrite list_lookup_middle in Hdoc' by reflexivity. congruence.
      * intros (i & doc & -> & Hi & He & Hlast). exists i, doc.
        pose proof (lookup_lt_Some _ _ _ Hi) as Hlt.
        rewrite length_app in Hlt. cbn in Hlt.
        assert (i <> length hist) as Hne.
        { intros ->. rewrite list_lookup_middle in Hi by reflexivity. congruence. }
        repeat split; [rewrite lookup_app_l in Hi by lia; exact Hi | exact He |].
        intros j doc' Hj Hdoc'. apply (Hlast j doc' Hj).
        rewrite lookup_app_l; [exact Hdoc' |]. now apply lookup_lt_Some in Hdoc'.
Qed.

(** Internal IDs follow the history: while they last, the internal ID of an
    external ID is the position of its last document among all the documents
    upserted, whatever the batches were. *)
Theorem extIDs_positions (hist : list Doc) (svc : Service) (e d : Z) :
  reachable hist svc -> Z.of_nat (length hist) <= 2 ^ 32 ->
  (extIDs svc !! e = Some d <->
   exists i doc, d = Z.of_nat i /\ hist !! i = Some doc /\ ID doc = e /\
     forall j doc', (i < j)%nat -> hist !! j = Some doc' -> ID doc' <> e).
Proof.
  intros Hreach Hcap. rewrite (reachable_extIDs _ _ Hreach Hcap). apply ids_last.
Qed.

End FurtherSearch.

Section FurtherState.
Context {A : Analyzer}.

Lemma Inv_docs_eq (svc svc' : Service) (txt : gmap Z string) :
  Inv svc txt -> Inv svc' txt -> extIDs svc = extIDs svc' ->
  docs svc = docs svc'.
Proof.
  intros Hinv Hinv' Hext.
  assert (Hsub : forall s s', Inv s txt -> Inv s' txt -> extIDs s = extIDs s' ->
            forall d m, docs s !! d = Some m -> docs s' !! d = Some m).
  { intros s s' Hs Hs' Heq d m Hm.
    pose proof (inv_docs _ _ Hs _ _ Hm) as He.
    destruct (inv_ext _ _ Hs _ _ He) as (text & Htext & Hm1).
    rewrite Heq in He. destruct (inv_ext _ _ Hs' _ _ He) as (text' & Htext' & Hm2).
    congruence. }
  apply map_eq. intros d. destruct (docs svc !! d) as [m|] eqn:E.
  - symmetry. eapply Hsub; eauto.
  - destruct (docs svc' !! d) as [m'|] eqn:E'; [| reflexivity].
    rewrite (Hsub svc' svc Hinv' Hinv (eq_sym Hext) d m' E') in E. discriminate.
Qed.

(** ** The order of the results *)

Lemma omap_sorted (f : Z -> option Z) (g : Z -> option Z) (c : list Z) :
  StronglySorted Z.lt c ->
  (forall d e, f d = Some e -> g e = Some d) ->
  StronglySorted
    (fun e1 e2 => forall d1 d2, g e1 = Some d1 -> g e2 = Some d2 -> d1 < d2)
    (omap f c).
Proof.
  intros Hc Hfg. induction Hc as [| x c Hc IH Hx]; [constructor |].
  change (omap f (x :: c)) with (from_option (fun y => y :: omap f c) (omap f c) (f x)).
  destruct (f x) as [e|] eqn:E; [| exact IH]. cbn. constructor; [exact IH |].
  apply Forall_forall. intros e' He' d1 d2 H1 H2.
  apply list_elem_of_omap in He' as (x' & Hx' & Hf').
  apply Hfg in E, Hf'. rewrite Forall_forall in Hx.
  assert (d1 = x) by congruence. assert (d2 = x') by congruence. subst.
  now apply Hx.
Qed.

(** Results come in the order of the internal IDs: while internal IDs last,
    an external ID stands before another in a result only if it got its
    current internal ID earlier, that is if its last upsert was earlier. *)
Theorem Search_order (hist : list Doc) (svc : Service) (ctx : Context)
    (query : string) (l : list Z) :
  reachable hist svc -> Z.of_nat (length hist) <= 2 ^ 32 ->
  fst (Search ctx svc query) = Some l ->
  StronglySorted (older svc) l.
Proof.
  intros Hreach Hcap Hl. pose proof (reachable_Inv _ _ Hreach Hcap) as Hinv.
  rewrite (Search_result_hits _ _ _ _ Hl). unfold older.
  apply (omap_sorted _ (fun e => extIDs svc !! e)).
  - eapply StronglySorted_sublist; [apply QueryTrigrams_sublist, Hinv |].
    apply all_ids_sorted, Hinv.
  - intros d e He. apply hit_Some in He as (m & Hm & _ & <-).
    now apply (inv_docs _ _ Hinv).
Qed.

(** ** What [Search] never returns *)

Lemma validate_nonzero (svc : Service) (k : nat) (ds : list Doc) :
  validate svc k ds = None -> Forall (fun doc => ID doc <> 0) ds.
Proof.
  revert k. induction ds as [|doc ds IH]; intros k; [constructor |].
  rewrite validate_cons. unfold invalid.
  destruct (Z.eqb_spec (ID doc) 0) as [| Hne]; [discriminate |]. cbn [orb].
  destruct (bool_decide (is_Some (extIDs svc !! ID doc))
            && (String.length (PriorText doc) =? 0)%nat); [discriminate |].
  intros H. constructor; [exact Hne | eauto].
Qed.

Lemma reachable_nonzero (hist : list Doc) (svc : Service) :
  reachable hist svc -> Forall (fun doc => ID doc <> 0) hist.
Proof.
  induction 1 as [| hist svc ds svc' Hreach IH Hup]; [constructor |].
  apply Forall_app. split; [exact IH |].
  apply Upsert_ok_inv in Hup as [Hv _]. eapply validate_nonzero; eauto.
Qed.

(** [Search] returns upserted documents only: while internal IDs last, every
    ID of a result is the ID of a document of a successful batch, and never
    zero. *)
Theorem Search_only_upserted (hist : list Doc) (svc : Service) (ctx : Context)
    (query : string) (l : list Z) (e : Z) :
  reachable hist svc -> Z.of_nat (length hist) <= 2 ^ 32 ->
  fst (Search ctx svc query) = Some l -> e ∈ l ->
  e <> 0 /\ exists doc, doc ∈ hist /\ ID doc = e.
Proof.
  intros Hreach Hcap Hl He. pose proof (reachable_Inv _ _ Hreach Hcap) as Hinv.
  rewrite (Search_result_hits _ _ _ _ Hl) in He.
  apply (hits_inv svc (texts hist) Hinv) in He as (text & Htext & _).
  assert (Hdom : e ∈ dom (texts hist)) by (apply elem_of_dom; eauto).
  rewrite dom_texts in Hdom. apply elem_of_list_to_set in Hdom.
  apply list_elem_of_fmap in Hdom as (doc & -> & Hdoc).
  split; [| eauto]. pose proof (reachable_nonzero _ _ Hreach) as Hnz.
  rewrite Forall_forall in Hnz. now apply Hnz.
Qed.

(** ** Contexts that are not done in time *)

Lemma candidateLoop_not_done (ctx : Context) (svc : Service) (words : list string)
    (candidates : list Z) (k : nat) (docIDs : list Z) :
  (forall j, (j < length candidates)%nat -> ctx_Done ctx (k + j) = false) ->
  candidateLoop ctx svc words candidates k docIDs
  = candidateLoop context_TODO svc words candidates k docIDs.
Proof.
  revert k docIDs. induction candidates as [|d cs IH]; intros k docIDs Hctx;
    [reflexivity |].
  cbn [candidateLoop ctx_Done context_TODO].
  rewrite <- (Nat.add_0_r k) at 1. rewrite (Hctx 0%nat) by (cbn; lia).
  assert (Hrest : forall acc, candidateLoop ctx svc words cs (S k) acc
                              = candidateLoop context_TODO svc words cs (S k) acc).
  { intros acc. apply IH. intros j Hj. rewrite Nat.add_succ_comm.
    apply Hctx. cbn. lia. }
  destruct (docs svc !! d) as [doc|]; [| apply Hrest].
  destruct (verify doc words); apply Hrest.
Qed.

(** The context matters at the polls only: a context that no poll finds
    done, one poll before each candidate, changes nothing; so a context
    done from the start does not stop a query that has no candidate. *)
Theorem Search_not_cancelled (ctx : Context) (svc : Service) (query : string) :
  (forall j,
     (j < length (elems (trigram.QueryTrigrams (idx svc) (tgrams query))))%nat ->
     ctx_Done ctx j = false) ->
  Search ctx svc query = Search context_TODO svc query.
Proof.
  intros Hctx. rewrite !Search_unfold.
  destruct (tgrams query) as [|t ts]; [reflexivity |].
  now apply candidateLoop_not_done.
Qed.

(** ** [DocCount] *)

(** [DocCount] counts external IDs, not texts: while internal IDs last, a
    successful [Upsert] makes it the number of external IDs known before or
    named in the batch; it never goes down, and a batch of updates only,
    be it to the empty text, leaves it as it is. *)
Theorem DocCount_after_Upsert (hist : list Doc) (svc svc' : Service) (ds : list Doc) :
  reachable hist svc -> Upsert svc ds = (svc', None) ->
  Z.of_nat (length (hist ++ ds)) <= 2 ^ 32 ->
  DocCount svc' = size (dom (extIDs svc) ∪ (list_to_set (ID <$> ds) : gset Z)) /\
  (DocCount svc <= DocCount svc')%nat /\
  (Forall (fun doc => is_Some (extIDs svc !! ID doc)) ds ->
   DocCount svc' = DocCount svc).
Proof.
  intros Hreach Hup Hcap.
  pose proof (reachable_Upsert _ _ _ _ Hreach Hup) as Hreach'.
  pose proof (reachable_Inv _ _ Hreach' Hcap) as Hinv'.
  rewrite length_app in Hcap.
  assert (Hinv : Inv svc (texts hist)) by (apply reachable_Inv; [assumption | lia]).
  assert (Hcount : forall s h, Inv s (texts h) -> DocCount s = size (dom (extIDs s))).
  { intros s h Hs. unfold DocCount. rewrite (inv_size _ _ Hs). symmetry. apply size_dom. }
  assert (Hdom : dom (extIDs svc') = dom (extIDs svc) ∪ list_to_set (ID <$> ds)).
  { rewrite (inv_dom _ _ Hinv'), (inv_dom _ _ Hinv), texts_app. apply dom_texts_from. }
  rewrite (Hcount _ _ Hinv'), (Hcount _ _ Hinv), Hdom.
  split; [reflexivity |]. split.
  - apply subseteq_size. apply union_subseteq_l.
  - intros Hall. f_equal. apply set_eq. intros x. rewrite elem_of_union. split; [| tauto].
    intros [Hx | Hx]; [exact Hx |]. apply elem_of_list_to_set in Hx.
    apply list_elem_of_fmap in Hx as (doc & -> & Hdoc).
    rewrite Forall_forall in Hall. apply elem_of_dom. now apply Hall.
Qed.

(** ** The empty batch *)

Lemma Prune_idem (idx : gmap Z (option (list Z))) (pct : spec_float) :
  trigram.Prune (trigram.Prune idx pct) pct = trigram.Prune idx pct.
Proof.
  apply map_eq. intros t.
  assert (Hlen : len (trigram.get (trigram.Prune idx pct) trigram.TAllDocIDs)
                 = len (trigram.get idx trigram.TAllDocIDs)).
  { unfold len. fold (all_ids (trigram.Prune idx pct)). fold (all_ids idx).
    now rewrite Prune_all_ids. }
  unfold trigram.Prune at 1. rewrite map_lookup_imap, Hlen.
  unfold trigram.Prune. rewrite map_lookup_imap.
  destruct (idx !! t) as [v|]; [| reflexivity]. cbn.
  match goal with |- context [negb ?a && (?m <? _)] =>
    generalize m; intros maxDocs; destruct a end; cbn; [reflexivity |].
  destruct (maxDocs <? Z.of_nat (len v)) eqn:E; cbn.
  - now destruct (maxDocs <? Z.of_nat 0).
  - now rewrite E.
Qed.

Lemma reachable_pruned (hist : list Doc) (svc : Service) :
  reachable hist svc -> Z.of_nat (length hist) <= 2 ^ 32 ->
  finish svc = svc.
Proof.
  intros Hreach Hcap. pose proof (reachable_Inv _ _ Hreach Hcap) as Hinv.
  assert (Hp : trigram.Prune (idx svc) pct_0_1 = idx svc).
  { destruct Hreach as [| hist svc ds svc' Hreach Hup].
    - apply map_eq. intros t. cbn [idx NewService].
      destruct (Prune_lookup trigram.NewIndex_nil pct_0_1 t) as [H | (Ht & [v Hv] & _)];
        [exact H |].
      exfalso. unfold trigram.NewIndex_nil in Hv.
      now rewrite lookup_singleton_ne in Hv by congruence.
    - rewrite length_app in Hcap.
      destruct (reachable_all_ids _ _ Hreach) as [Hlen Hinv0]; [lia |].
      apply Upsert_ok_inv in Hup as [_ ->]. unfold finish. cbn [idx].
      assert (Hok : index_ok (idx (fold_left upsert1 ds svc))).
      { apply (inv_idx _ (texts_from (texts hist) ds)).
        apply Inv_batch; [exact Hinv0 | rewrite Hlen; lia]. }
      rewrite (index_ok_Sort _ (index_ok_Prune _ pct_0_1 Hok)). apply Prune_idem. }
  destruct svc as [dcs ext ix]. unfold finish. cbn [idx docs extIDs] in *.
  f_equal. rewrite Hp. apply index_ok_Sort, Hinv.
Qed.

(** The empty batch does nothing: while internal IDs last, [Upsert] of no
    document succeeds and returns the service as it was; pruning again
    prunes nothing more. *)
Theorem Upsert_empty_batch (hist : list Doc) (svc : Service) :
  reachable hist svc -> Z.of_nat (length hist) <= 2 ^ 32 ->
  Upsert svc [] = (svc, None).
Proof.
  intros Hreach Hcap. unfold Upsert. cbn [validate fold_left].
  now rewrite (reachable_pruned _ _ Hreach Hcap).
Qed.

End FurtherState.

Section PriorText.
Context {A : Analyzer}.

Lemma texts_from_same (ds ds' : list Doc) (txt : gmap Z string) :
  Forall2 (fun d d' => ID d = ID d' /\ Text d = Text d') ds ds' ->
  texts_from txt ds = texts_from txt ds'.
Proof.
  intros H. revert txt. induction H as [| d d' ds ds' [Hi Ht] _ IH]; intros txt;
    [reflexivity |].
  unfold texts_from. cbn [fold_left]. rewrite Hi, Ht. apply IH.
Qed.

Lemma ids_from_same (ds ds' : list Doc) (n : nat) (m : gmap Z Z) :
  Forall2 (fun d d' => ID d = ID d' /\ Text d = Text d') ds ds' ->
  ids_from n m ds = ids_from n m ds'.
Proof.
  intros H. revert n m. induction H as [| d d' ds ds' [Hi Ht] _ IH]; intros n m;
    [reflexivity |].
  cbn [ids_from]. rewrite Hi. apply IH.
Qed.

(** [PriorText] never shows in an answer, nor do the batches: while internal
    IDs last, two services whose successful batches held documents with the
    same IDs and texts in the same order, whatever their prior texts and
    however cut into batches, have the same [docs] and [extIDs] and answer
    every query alike (query tokens without delimiter byte); a wrong prior
    text leaves postings behind, which the verification discards. *)
Theorem PriorText_irrelevant (hist hist' : list Doc) (svc svc' : Service) :
  reachable hist svc -> reachable hist' svc' ->
  Forall2 (fun d d' => ID d = ID d' /\ Text d = Text d') hist hist' ->
  Z.of_nat (length hist) <= 2 ^ 32 ->
  docs svc = docs svc' /\ extIDs svc = extIDs svc' /\
  forall query, Forall no_delim (tokens query) ->
    Search context_TODO svc query = Search context_TODO svc' query.
Proof.
  intros Hr Hr' Hsame Hcap.
  assert (Hcap' : Z.of_nat (length hist') <= 2 ^ 32).
  { now rewrite <- (Forall2_length _ _ _ Hsame). }
  destruct (reachable_all_ids _ _ Hr Hcap) as [Hlen Hinv].
  destruct (reachable_all_ids _ _ Hr' Hcap') as [Hlen' Hinv'].
  assert (Htxt : texts hist = texts hist') by now apply texts_from_same.
  assert (Hext : extIDs svc = extIDs svc').
  { rewrite (reachable_extIDs _ _ Hr Hcap), (reachable_extIDs _ _ Hr' Hcap').
    now apply ids_from_same. }
  rewrite <- Htxt in Hinv'.
  pose proof (Inv_docs_eq _ _ _ Hinv Hinv' Hext) as Hdocs.
  split; [exact Hdocs |]. split; [exact Hext |].
  intros query Hd. rewrite !Search_unfold.
  destruct (tgrams query) as [|t ts] eqn:E; [reflexivity |].
  rewrite !candidateLoop_never_done by reflexivity. cbn [app]. rewrite <- E.
  rewrite (hits_scan svc (texts hist)), (hits_scan svc' (texts hist)) by assumption.
  unfold scan, hit. rewrite Hdocs.
  rewrite (ok_all _ (inv_idx _ _ Hinv)), (ok_all _ (inv_idx _ _ Hinv')), Hlen, Hlen'.
  now rewrite (Forall2_length _ _ _ Hsame).
Qed.

End PriorText.

(** ** The further theorems at the test documents *)

Section FurtherScenarios.
Local Existing Instance model_Analyze.
Local Open Scope string_scope.

Ltac evaluate := vm_compute; reflexivity.

Lemma reachable_svc11' : reachable (ten ++ [right_prior]) svc11'.
Proof. apply (reachable_Upsert _ _ _ svc11' reachable_svc10). evaluate. Qed.

Lemma capacity_11 : Z.of_nat (length (ten ++ [wrong_prior])) <= 2 ^ 32.
Proof. cbn. lia. Defined.

Lemma Search_unknown_trigram_witness :
  6257253 ∈ tgrams "zebra" /\ idx svc3 !! 6257253 = None /\
  Search ctx_done svc3 "zebra" = (Some [], None).
Proof.
  assert (H1 : 6257253 ∈ tgrams "zebra") by (vm_compute; repeat constructor).
  assert (H2 : idx svc3 !! 6257253 = None) by evaluate.
  split; [exact H1 |]. split; [exact H2 |].
  exact (Search_unknown_trigram ctx_done svc3 "zebra" 6257253 H1 H2).
Defined.

Lemma NewService_fresh_witness :
  tgrams "fox" <> [] /\ Search ctx_done NewService "fox" = (Some [], None).
Proof.
  assert (H1 : tgrams "fox" <> []) by (vm_compute; discriminate).
  split; [exact H1 |].
  exact (proj2 NewService_fresh ctx_done "fox" H1).
Defined.

Lemma Upsert_succeeds_iff_witness :
  existsb (invalid svc3) [docThree'; mkDoc 4 "new" EmptyString] = false /\
  Upsert svc3 [docThree'; mkDoc 4 "new" EmptyString]
  = (finish (fold_left upsert1 [docThree'; mkDoc 4 "new" EmptyString] svc3), None).
Proof.
  assert (H1 : existsb (invalid svc3) [docThree'; mkDoc 4 "new" EmptyString] = false)
    by evaluate.
  split; [exact H1 |].
  exact (proj2 (Upsert_succeeds_iff svc3 [docThree'; mkDoc 4 "new" EmptyString]) H1).
Defined.

Lemma Search_is_scan_witness :
  reachable [docOne; docTwo; docThree] svc3 /\
  Z.of_nat (length [docOne; docTwo; docThree]) <= 2 ^ 32 /\
  Forall no_delim (tokens "jump") /\ tgrams "jump" <> [] /\
  Search context_TODO svc3 "jump" = (Some (scan svc3 "jump"), None).
Proof.
  assert (H1 : Forall no_delim (tokens "jump")) by (vm_compute; repeat constructor).
  assert (H2 : tgrams "jump" <> []) by (vm_compute; discriminate).
  split; [exact reachable_svc3 |]. split; [exact capacity_3 |].
  split; [exact H1 |]. split; [exact H2 |].
  exact (proj2 (Search_is_scan _ _ "jump" reachable_svc3 capacity_3 H1) H2).
Defined.

Lemma Search_finds_matches_witness :
  reachable [docOne; docTwo; docThree] svc3 /\
  Z.of_nat (length [docOne; docTwo; docThree]) <= 2 ^ 32 /\
  tgrams "she sho" <> [] /\ Forall no_delim (tokens "she sho") /\
  (forall e text, texts [docOne; docTwo; docThree] !! e = Some text ->
     Forall no_marker (tokens text)) /\
  exists l,
    Search context_TODO svc3 "she sho" = (Some l, None) /\ NoDup l /\
    forall e, e ∈ l <->
      exists text, texts [docOne; docTwo; docThree] !! e = Some text /\
                   matches "she sho" text.
Proof.
  assert (H1 : tgrams "she sho" <> []) by (vm_compute; discriminate).
  assert (H2 : Forall no_delim (tokens "she sho")) by (vm_compute; repeat constructor).
  assert (H3 : forall e text, texts [docOne; docTwo; docThree] !! e = Some text ->
                 Forall no_marker (tokens text)).
  { intros e text _. apply model_tokens_clean. }
  split; [exact reachable_svc3 |]. split; [exact capacity_3 |].
  split; [exact H1 |]. split; [exact H2 |]. split; [exact H3 |].
  exact (Search_finds_matches _ _ "she sho" reachable_svc3 capacity_3 H1 H2 H3).
Defined.

Lemma extIDs_positions_witness :
  reachable (ten ++ [wrong_prior]) svc11 /\
  Z.of_nat (length (ten ++ [wrong_prior])) <= 2 ^ 32 /\
  (extIDs svc11 !! 1 = Some 10 <->
   exists i doc, 10 = Z.of_nat i /\ (ten ++ [wrong_prior])%list !! i = Some doc /\
     ID doc = 1 /\
     forall j doc', (i < j)%nat -> (ten ++ [wrong_prior])%list !! j = Some doc' ->
       ID doc' <> 1).
Proof.
  split; [exact reachable_svc11 |]. split; [exact capacity_11 |].
  exact (extIDs_positions _ _ 1 10 reachable_svc11 capacity_11).
Defined.

Lemma PriorText_irrelevant_witness :
  reachable (ten ++ [wrong_prior]) svc11 /\
  reachable (ten ++ [right_prior]) svc11' /\
  Forall2 (fun d d' => ID d = ID d' /\ Text d = Text d')
    (ten ++ [wrong_prior])%list (ten ++ [right_prior])%list /\
  Z.of_nat (length (ten ++ [wrong_prior])) <= 2 ^ 32 /\
  idx svc11 <> idx svc11' /\
  docs svc11 = docs svc11' /\ extIDs svc11 = extIDs svc11' /\
  forall query, Forall no_delim (tokens query) ->
    Search context_TODO svc11 query = Search context_TODO svc11' query.
Proof.
  assert (H1 : Forall2 (fun d d' => ID d = ID d' /\ Text d = Text d')
                 (ten ++ [wrong_prior])%list (ten ++ [right_prior])%list).
  { cbn. repeat (constructor; [split; reflexivity |]). constructor. }
  assert (H2 : idx svc11 <> idx svc11').
  { intros H. apply (f_equal (fun i => i !! 6381921)) in H.
    vm_compute in H. discriminate H. }
  split; [exact reachable_svc11 |]. split; [exact reachable_svc11' |].
  split; [exact H1 |]. split; [exact capacity_11 |]. split; [exact H2 |].
  exact (PriorText_irrelevant _ _ _ _ reachable_svc11 reachable_svc11' H1 capacity_11).
Defined.

Lemma Search_order_witness :
  reachable [docOne; docTwo; docThree] svc3 /\
  Z.of_nat (length [docOne; docTwo; docThree]) <= 2 ^ 32 /\
  fst (Search context_TODO svc3 "jump") = Some [1; 3] /\
  StronglySorted (older svc3) [1; 3].
Proof.
  assert (H1 : fst (Search context_TODO svc3 "jump") = Some [1; 3]) by evaluate.
  split; [exact reachable_svc3 |]. split; [exact capacity_3 |]. split; [exact H1 |].
  exact (Search_order _ _ context_TODO "jump" [1; 3] reachable_svc3 capacity_3 H1).
Defined.

Lemma Search_only_upserted_witness :
  reachable [docOne; docTwo; docThree] svc3 /\
  Z.of_nat (length [docOne; docTwo; docThree]) <= 2 ^ 32 /\
  fst (Search context_TODO svc3 "jump") = Some [1; 3] /\ 3 ∈ [1; 3] /\
  3 <> 0 /\ exists doc, doc ∈ [docOne; docTwo; docThree] /\ ID doc = 3.
Proof.
  assert (H1 : fst (Search context_TODO svc3 "jump") = Some [1; 3]) by evaluate.
  assert (H2 : 3 ∈ [1; 3]) by (repeat constructor).
  split; [exact reachable_svc3 |]. split; [exact capacity_3 |]. split; [exact H1 |].
  split; [exact H2 |].
  exact (Search_only_upserted _ _ context_TODO "jump" [1; 3] 3
           reachable_svc3 capacity_3 H1 H2).
Defined.

Lemma Search_not_cancelled_witness :
  (forall j,
     (j < length (elems (trigram.QueryTrigrams (idx svc10) (tgrams "iii"))))%nat ->
     ctx_Done ctx_cancelled_at_1 j = false) /\
  Search ctx_cancelled_at_1 svc10 "iii" = Search context_TODO svc10 "iii".
Proof.
  assert (H1 : forall j,
            (j < length (elems (trigram.QueryTrigrams (idx svc10) (tgrams "iii"))))%nat ->
            ctx_Done ctx_cancelled_at_1 j = false).
  { replace (length _) with 1%nat by evaluate.
    intros [|j] Hj; [reflexivity | lia]. }
  split; [exact H1 |].
  exact (Search_not_cancelled ctx_cancelled_at_1 svc10 "iii" H1).
Defined.

Lemma DocCount_after_Upsert_witness :
  reachable ten svc10 /\ Upsert svc10 [wrong_prior] = (svc11, None) /\
  Z.of_nat (length (ten ++ [wrong_prior])) <= 2 ^ 32 /\
  Forall (fun doc => is_Some (extIDs svc10 !! ID doc)) [wrong_prior] /\
  DocCount svc11
  = size (dom (extIDs svc10) ∪ (list_to_set (ID <$> [wrong_prior]) : gset Z)) /\
  (DocCount svc10 <= DocCount svc11)%nat /\
  DocCount svc11 = DocCount svc10.
Proof.
  assert (H1 : Upsert svc10 [wrong_prior] = (svc11, None)) by evaluate.
  assert (H2 : Forall (fun doc => is_Some (extIDs svc10 !! ID doc)) [wrong_prior]).
  { constructor; [| constructor]. exists 0. evaluate. }
  destruct (DocCount_after_Upsert _ _ _ _ reachable_svc10 H1 capacity_11)
    as (Ha & Hb & Hc).
  split; [exact reachable_svc10 |]. split; [exact H1 |]. split; [exact capacity_11 |].
  split; [exact H2 |]. split; [exact Ha |]. split; [exact Hb | exact (Hc H2)].
Defined.

Lemma Upsert_empty_batch_witness :
  reachable [docOne; docTwo; docThree] svc3 /\
  Z.of_nat (length [docOne; docTwo; docThree]) <= 2 ^ 32 /\
  Upsert svc3 [] = (svc3, None).
Proof.
  split; [exact reachable_svc3 |]. split; [exact capacity_3 |].
  exact (Upsert_empty_batch _ _ reachable_svc3 capacity_3).
Defined.

End FurtherScenarios.
